(** * Nearest-neighbour stencil: serial sweep and halo-exchanging workers

    Shallow embedding of [h_serial.cpp], [h_parallel.cpp] and their
    [10k] variants.

    - [int] values are [Z]; [/] and [%] are C++'s truncating [Z.quot] and
      [Z.rem].  For [0 <= N <= INT_MAX], [1 <= size] and [0 <= rank < size]
      none of the integer expressions of the programs leaves the [int]
      range, so no wrap-around is involved.
    - [std::vector<complex<double>>] is a [list]; [operator[]] is checked
      here ([vget], [vset]) and an access outside the vector is [None].
    - [std::complex<double>] arithmetic is an interface, [ComplexArith]:
      the theorems of the generic part hold for every implementation of
      it, rounding included.  [RealModel] instantiates it with exact
      real arithmetic.
    - The ranks run in lockstep: every [MPI_Sendrecv] of step [s] is
      matched by the neighbour's [MPI_Sendrecv] of step [s], so one step
      of the whole job is a function of the segments of all ranks. *)

From Stdlib Require Import ZArith List Lia Reals Lra.
From stdpp Require Import base option list list_numbers.

Local Open Scope Z_scope.

(** ** Complex arithmetic as the sources use it *)

Class ComplexArith := {
  dbl : Type;                       (* double *)
  cplx : Type;                      (* std::complex<double> *)
  c_zero : cplx;                    (* complex<double> x = 0 *)
  c_one : cplx;                     (* psi(N, 1.0) *)
  imag_1 : cplx;                    (* the literal 1i *)
  cos_Jdt : dbl;                    (* cos(J*dt), J = 1.0, dt = 0.01 *)
  sin_Jdt : dbl;                    (* sin(J*dt) *)
  dmul_c : dbl -> cplx -> cplx;     (* double * complex *)
  cmul_d : cplx -> dbl -> cplx;     (* complex * double *)
  cmul : cplx -> cplx -> cplx;      (* complex * complex *)
  csub : cplx -> cplx -> cplx       (* complex - complex *)
}.

(** ** Loops *)

(** [for (int i = lo; i < hi; i++) body], over a state that may fault. *)
Fixpoint for_each {S : Type} (idx : list Z) (body : S -> Z -> option S)
    (st : S) : option S :=
  match idx with
  | [] => Some st
  | i :: idx' => st' ← body st i; for_each idx' body st'
  end.

Definition for_range {S : Type} (lo hi : Z) (body : S -> Z -> option S)
    (st : S) : option S :=
  for_each (seqZ lo (hi - lo)) body st.

(** [for (int s = 0; s < steps; s++) step]. *)
Fixpoint repeat_steps {S : Type} (steps : nat) (step : S -> option S)
    (st : S) : option S :=
  match steps with
  | O => Some st
  | Datatypes.S n => st' ← step st; repeat_steps n step st'
  end.

(** Every rank runs the same body; [on_ranks f r st] runs [f] on the
    segments [st] of the ranks [r], [r+1], ... and faults when one does. *)
Fixpoint on_ranks {X Y : Type} (f : Z -> X -> option Y) (rank : Z)
    (st : list X) : option (list Y) :=
  match st with
  | [] => Some []
  | x :: st' => y ← f rank x; ys ← on_ranks f (rank + 1) st'; Some (y :: ys)
  end.

(** ** Vectors *)

(** [v[i]] as an rvalue; the [int] index converts to [size_t], so a
    negative one is out of range like any [i >= v.size()]. *)
Definition vget {T : Type} (v : list T) (i : Z) : option T :=
  if decide (0 <= i) then v !! Z.to_nat i else None.

(** [v[i] = x]. *)
Definition vset {T : Type} (v : list T) (i : Z) (x : T) : option (list T) :=
  if decide (0 <= i < Z.of_nat (length v))
  then Some (<[Z.to_nat i := x]> v) else None.

(** ** Domain decomposition ([h_parallel.cpp], lines 38-40) *)

Definition base (N size : Z) : Z := Z.quot N size.
Definition rem (N size : Z) : Z := Z.rem N size.

(** [int local_N = base + (rank < rem ? 1 : 0);] *)
Definition local_N (N size rank : Z) : Z :=
  base N size + (if decide (rank < rem N size) then 1 else 0).

(** The ranks of a job of [size] processes, and their segment lengths. *)
Definition ranks (size : Z) : list Z := seqZ 0 size.

Definition lengths (N size : Z) : list Z := local_N N size <$> ranks size.

Definition Zsum (l : list Z) : Z := foldr Z.add 0 l.

(** The programs keep no offsets: rank [r]'s first global index is the
    number of elements held by the ranks below it. *)
Definition offset (N size r : Z) : Z := Zsum (local_N N size <$> seqZ 0 r).

Definition offsets (N size : Z) : list Z := offset N size <$> ranks size.

(** [rank == 0 ? MPI_PROC_NULL : rank - 1]; [None] is [MPI_PROC_NULL],
    which is no rank of the communicator. *)
Definition left_rank (rank : Z) : option Z :=
  if decide (rank = 0) then None else Some (rank - 1).

(** [rank == size-1 ? MPI_PROC_NULL : rank + 1] *)
Definition right_rank (rank size : Z) : option Z :=
  if decide (rank = size - 1) then None else Some (rank + 1).

Section Stencil.
Context {A : ComplexArith}.

(** [vector<complex<double>> psi(n, 1.0)]: a negative [n] converts to a
    [size_t] above [max_size()] and the constructor throws. *)
Definition alloc (n : Z) : option (list cplx) :=
  if decide (0 <= n) then Some (replicate (Z.to_nat n) c_one) else None.

(** ** The two-point update *)

(** [cos(J*dt)*x - 1i*sin(J*dt)*y]; [1i*sin(J*dt)*y] parses as
    [(1i*sin(J*dt))*y]. *)
Definition upd (x y : cplx) : cplx :=
  csub (dmul_c cos_Jdt x) (cmul (cmul_d imag_1 sin_Jdt) y).

(** Body of the inner loop:
    [temp = psi[i]; psi[i] = upd psi[i] psi[i+1]; psi[i+1] = upd psi[i+1] temp]. *)
Definition pair_update (psi : list cplx) (i : Z) : option (list cplx) :=
  temp ← vget psi i;
  a ← vget psi i;
  b ← vget psi (i + 1);
  psi1 ← vset psi i (upd a b);
  b' ← vget psi1 (i + 1);
  vset psi1 (i + 1) (upd b' temp).

(** [for (int i = 0; i < local_N - 1; i++) { ... }] *)
Definition local_update (local_N : Z) (psi : list cplx) : option (list cplx) :=
  for_range 0 (local_N - 1) pair_update psi.

(** ** The serial program *)

Definition serial_step (N : Z) (psi : list cplx) : option (list cplx) :=
  local_update N psi.

Definition serial_loop (N : Z) (steps : nat) (psi : list cplx)
    : option (list cplx) :=
  repeat_steps steps (serial_step N) psi.

(** [h_serial.cpp] from [int N = stoi(argv[1])] to the end of the step
    loop; [steps] is 1000 there and 10000 in [h_serial_10k.cpp]. *)
Definition serial_run (N : Z) (steps : nat) : option (list cplx) :=
  psi ← alloc N; serial_loop N steps psi.

(** ** The parallel program *)

(** [left_send = psi[0], right_send = psi[local_N - 1]] *)
Record halo := Halo { left_send : cplx; right_send : cplx }.

Definition capture (n : Z) (psi : list cplx) : option halo :=
  l ← vget psi 0; r ← vget psi (n - 1); Some (Halo l r).

(** The receiving half of an [MPI_Sendrecv]: the buffer keeps its value
    when the source is [MPI_PROC_NULL], and takes what the source sends
    to this rank otherwise.  A source outside the communicator is an MPI
    error. *)
Definition recv (sent : list halo) (source : option Z) (what : halo -> cplx)
    (buf : cplx) : option cplx :=
  match source with
  | None => Some buf
  | Some p => what <$> vget sent p
  end.

(** The two [MPI_Sendrecv] calls of one step, as seen by [rank]:
    tag 0 carries every rank's [left_send] to its left neighbour, tag 1
    every rank's [right_send] to its right neighbour.  Both buffers
    start as [0].  The result is [(left_recv, right_recv)]. *)
Definition exchange (sent : list halo) (rank size : Z) : option (cplx * cplx) :=
  right_recv ← recv sent (right_rank rank size) left_send c_zero;
  left_recv ← recv sent (left_rank rank) right_send c_zero;
  Some (left_recv, right_recv).

(** [if (left_rank != MPI_PROC_NULL) psi[0] = left_recv;]
    [if (right_rank != MPI_PROC_NULL) psi[local_N - 1] = right_recv;] *)
Definition apply_boundaries (rank size n : Z) (left_recv right_recv : cplx)
    (psi : list cplx) : option (list cplx) :=
  psi1 ← (if left_rank rank is Some _ then vset psi 0 left_recv else Some psi);
  if right_rank rank size is Some _ then vset psi1 (n - 1) right_recv
  else Some psi1.

(** One iteration of the step loop on [rank], after the sends of all
    ranks were captured. *)
Definition worker_step (N size : Z) (sent : list halo) (rank : Z)
    (psi : list cplx) : option (list cplx) :=
  let n := local_N N size rank in
  '(left_recv, right_recv) ← exchange sent rank size;
  psi1 ← apply_boundaries rank size n left_recv right_recv psi;
  local_update n psi1.

(** The exchange and the boundary overwrite alone, on all ranks. *)
Definition halo_phase (N size : Z) (st : list (list cplx))
    : option (list (list cplx)) :=
  sent ← on_ranks (fun r psi => capture (local_N N size r) psi) 0 st;
  on_ranks (fun r psi =>
              '(left_recv, right_recv) ← exchange sent r size;
              apply_boundaries r size (local_N N size r) left_recv right_recv psi)
           0 st.

Definition parallel_step (N size : Z) (st : list (list cplx))
    : option (list (list cplx)) :=
  sent ← on_ranks (fun r psi => capture (local_N N size r) psi) 0 st;
  on_ranks (worker_step N size sent) 0 st.

Definition parallel_init (N size : Z) : option (list (list cplx)) :=
  mapM (fun r => alloc (local_N N size r)) (ranks size).

Definition parallel_loop (N size : Z) (steps : nat) (st : list (list cplx))
    : option (list (list cplx)) :=
  repeat_steps steps (parallel_step N size) st.

Definition parallel_run (N size : Z) (steps : nat)
    : option (list (list cplx)) :=
  st ← parallel_init N size; parallel_loop N size steps st.

(** How a job ends.  [arg] is [argv[1]] read by [stoi], when present. *)
Inductive outcome :=
| UsageExit                    (* argc < 2: usage line, exit status 1 *)
| AllocThrows                  (* a vector constructor threw *)
| Ran (allocated : list (list cplx))        (* the segments as allocated *)
      (final : option (list (list cplx))).  (* the step loop's result;
                                                [None]: an access out of range *)

Definition parallel_main (arg : option Z) (size : Z) (steps : nat) : outcome :=
  match arg with
  | None => UsageExit
  | Some N =>
      match parallel_init N size with
      | None => AllocThrows
      | Some st => Ran st (parallel_loop N size steps st)
      end
  end.

(** ** The sweep, read off the specification

    "Left to right, over adjacent pairs (i, i+1): pair i uses the
    pre-pair values of both elements; pair i+1 then uses the
    already-updated segment[i+1] as its left operand."  [sweep_from a rest]
    is the sweep of a segment whose current left operand is [a]. *)
Fixpoint sweep_from (a : cplx) (rest : list cplx) : list cplx :=
  match rest with
  | [] => [a]
  | b :: rest' => upd a b :: sweep_from (upd b a) rest'
  end.

Definition gauss_seidel (psi : list cplx) : list cplx :=
  match psi with
  | [] => []
  | a :: rest => sweep_from a rest
  end.

(** ** Shapes *)

(** [st] holds one segment per rank, of the length the partition gives. *)
Definition well_shaped (N size : Z) (st : list (list cplx)) : Prop :=
  Forall2 (fun r psi => Z.of_nat (length psi) = local_N N size r)
          (ranks size) st.

(** The states the step loop of the job [(N, size)] goes through. *)
Definition reachable (N size : Z) (st : list (list cplx)) : Prop :=
  exists steps, parallel_run N size steps = Some st.

(** The global vector: the segments one after the other, in rank order. *)
Definition gather (st : list (list cplx)) : list cplx := concat st.

(** First and last element of rank [r]'s segment. *)
Definition first_of (st : list (list cplx)) (r : Z) : option cplx :=
  psi ← vget st r; vget psi 0.

Definition last_of (st : list (list cplx)) (r : Z) : option cplx :=
  psi ← vget st r; vget psi (Z.of_nat (length psi) - 1).

(** ** The halo phase as a recursion over the ranks

    [halo_rec left st] rewrites the segments [st] from the lowest rank
    on: [left] is the last element the rank below held before the
    exchange ([None] below rank 0); a segment's first slot takes it, and
    then its last slot takes the first element of the next segment. *)
Definition set_first (x : option cplx) (psi : list cplx) : list cplx :=
  match x with
  | Some l => <[0%nat := l]> psi
  | None => psi
  end.

Definition set_last (x : option cplx) (psi : list cplx) : list cplx :=
  match x with
  | Some f => <[pred (length psi) := f]> psi
  | None => psi
  end.

Fixpoint halo_rec (left : option cplx) (st : list (list cplx))
    : list (list cplx) :=
  match st with
  | [] => []
  | psi :: rest =>
      set_last (head rest ≫= head) (set_first left psi)
      :: halo_rec (last psi) rest
  end.

End Stencil.

(** ** Exact arithmetic

    The interface read over the real numbers: a complex number is its
    pair of parts, [J*dt] is [1 * (1/100)]. *)
Module RealModel.

Definition J : R := 1%R.
Definition dt : R := (1 / 100)%R.

#[export] Instance real_arith : ComplexArith := {|
  dbl := R;
  cplx := R * R;
  c_zero := (0, 0)%R;
  c_one := (1, 0)%R;
  imag_1 := (0, 1)%R;
  cos_Jdt := cos (J * dt);
  sin_Jdt := sin (J * dt);
  dmul_c := fun d z => (d * z.1, d * z.2)%R;
  cmul_d := fun z d => (z.1 * d, z.2 * d)%R;
  cmul := fun z w => (z.1 * w.1 - z.2 * w.2, z.1 * w.2 + z.2 * w.1)%R;
  csub := fun z w => (z.1 - w.1, z.2 - w.2)%R
|}.

(** Two amplitudes agree within [eps] in both parts. *)
Definition within (eps : R) (z w : R * R) : Prop :=
  (Rabs (z.1 - w.1) <= eps /\ Rabs (z.2 - w.2) <= eps)%R.

(** The rule of the specification, [c x - i s y], on the parts. *)
Definition spec_rule (c s : R) (x y : R * R) : R * R :=
  (c * x.1 + s * y.2, c * x.2 - s * y.1)%R.

(** The four values of the specification's scenario, built as it says:
    indices 0 and 1 by pair (0,1) from the initial ones; index 1 again
    and index 2 by pair (1,2), from the fresh index 1 and the initial
    index 2; index 2 again and index 3 by pair (2,3). *)
Definition scenario_expected : list (R * R) :=
  let c := cos (1 / 100) in
  let s := sin (1 / 100) in
  let one := (1, 0)%R in
  let x0 := spec_rule c s one one in
  let x1 := spec_rule c s one one in
  let x1' := spec_rule c s x1 one in
  let x2 := spec_rule c s one x1 in
  let x2' := spec_rule c s x2 one in
  let x3 := spec_rule c s one x2 in
  [x0; x1'; x2'; x3].

(** [|z|^2], and its sum over a vector. *)
Definition norm2 (z : R * R) : R := (z.1 * z.1 + z.2 * z.2)%R.

Definition total (psi : list (R * R)) : R :=
  foldr (fun z acc => (norm2 z + acc)%R) 0%R psi.

End RealModel.

(** * Properties *)

(** ** Vectors and loops *)

Section VectorFacts.
Context {T : Type}.
Implicit Types (v : list T) (x : T).

Lemma vget_nat v (n : nat) : vget v (Z.of_nat n) = v !! n.
Proof. unfold vget. rewrite decide_True by lia. by rewrite Nat2Z.id. Qed.

Lemma vget_neg v i : i < 0 -> vget v i = None.
Proof. intros. unfold vget. by rewrite decide_False by lia. Qed.

Lemma vget_ge v i : Z.of_nat (length v) <= i -> vget v i = None.
Proof.
  intros. unfold vget. case_decide; [|done].
  apply lookup_ge_None_2. lia.
Qed.

Lemma vget_is_Some v i : is_Some (vget v i) <-> 0 <= i < Z.of_nat (length v).
Proof.
  unfold vget. case_decide.
  - rewrite lookup_lt_is_Some. lia.
  - split; [by intros [? ?]|lia].
Qed.

Lemma vset_nat v (n : nat) x :
  (n < length v)%nat -> vset v (Z.of_nat n) x = Some (<[n := x]> v).
Proof. intros. unfold vset. rewrite decide_True by lia. by rewrite Nat2Z.id. Qed.

Lemma vset_length v i x v' : vset v i x = Some v' -> length v' = length v.
Proof.
  unfold vset. case_decide; [|done]. intros [= <-]. apply length_insert.
Qed.

Lemma vset_is_Some v i x : is_Some (vset v i x) <-> 0 <= i < Z.of_nat (length v).
Proof.
  unfold vset. case_decide.
  - split; [done|by eauto].
  - split; [by intros [? ?]|done].
Qed.

End VectorFacts.

(** ** The local sweep *)

Section SweepFacts.
Context {A : ComplexArith}.
Implicit Types (psi pre rest : list cplx) (a b : cplx).

Lemma lookup_after pre a rest (k : nat) :
  (pre ++ a :: rest) !! (length pre + k)%nat = (a :: rest) !! k.
Proof. rewrite lookup_app_r by lia. f_equal. lia. Qed.

Lemma insert_after pre a rest (k : nat) (x : cplx) :
  <[(length pre + k)%nat := x]> (pre ++ a :: rest)
  = pre ++ <[k := x]> (a :: rest).
Proof. rewrite insert_app_r_alt by lia. do 2 f_equal. lia. Qed.

(** One pair, at the position that follows [pre]. *)
Lemma pair_update_at pre a b rest :
  pair_update (pre ++ a :: b :: rest) (Z.of_nat (length pre))
  = Some (pre ++ upd a b :: upd b a :: rest).
Proof.
  assert (E1 : Z.of_nat (length pre) = Z.of_nat (length pre + 0)) by lia.
  assert (E2 : Z.of_nat (length pre) + 1 = Z.of_nat (length pre + 1)) by lia.
  unfold pair_update. rewrite E2, E1.
  rewrite !vget_nat, !lookup_after. simpl.
  rewrite vset_nat by (rewrite length_app; simpl; lia).
  rewrite insert_after. simpl.
  rewrite vget_nat, lookup_after. simpl.
  rewrite vset_nat by (rewrite length_app; simpl; lia).
  by rewrite insert_after.
Qed.

(** A pair that reaches past the end of the vector faults. *)
Lemma pair_update_out psi i :
  Z.of_nat (length psi) <= i + 1 -> pair_update psi i = None.
Proof.
  intros Hi. unfold pair_update.
  destruct (vget psi i) as [t|]; [simpl|done].
  by rewrite vget_ge.
Qed.

Lemma length_sweep_from a rest : length (sweep_from a rest) = S (length rest).
Proof. revert a. induction rest as [|b rest IH]; intros a; simpl; [done|]. by rewrite IH. Qed.

Lemma length_gauss_seidel psi : length (gauss_seidel psi) = length psi.
Proof. destruct psi as [|a rest]; [done|]. apply length_sweep_from. Qed.

(** The pairs [length pre], [length pre + 1], ... in increasing order. *)
Lemma for_each_sweep_from rest : forall pre a,
  for_each (seqZ (Z.of_nat (length pre)) (Z.of_nat (length rest)))
           pair_update (pre ++ a :: rest)
  = Some (pre ++ sweep_from a rest).
Proof.
  induction rest as [|b rest IH]; intros pre a; [done|].
  rewrite seqZ_cons by (simpl; lia). simpl for_each.
  rewrite pair_update_at. simpl.
  specialize (IH (pre ++ [upd a b]) (upd b a)).
  rewrite length_app in IH. simpl in IH.
  replace (Z.succ (Z.of_nat (length pre)))
    with (Z.of_nat (length pre + 1)) by lia.
  replace (Z.pred (Z.of_nat (S (length rest))))
    with (Z.of_nat (length rest)) by lia.
  rewrite <- !app_assoc in IH. simpl in IH. by rewrite IH.
Qed.

(** The loop of the sources computes the sweep of the specification,
    when [local_N] is the length of the vector. *)
Lemma local_update_gauss_seidel psi :
  local_update (Z.of_nat (length psi)) psi = Some (gauss_seidel psi).
Proof.
  unfold local_update, for_range. destruct psi as [|a rest]; [done|].
  replace (Z.of_nat (length (a :: rest)) - 1 - 0)
    with (Z.of_nat (length rest)) by (simpl; lia).
  apply (for_each_sweep_from rest [] a).
Qed.

Lemma local_update_length n psi psi' :
  local_update n psi = Some psi' -> length psi' = length psi.
Proof.
  unfold local_update, for_range.
  generalize (seqZ 0 (n - 1 - 0)). intros idx. revert psi.
  induction idx as [|i idx IH]; intros psi; simpl.
  - by intros [= <-].
  - destruct (pair_update psi i) as [psi1|] eqn:E; [simpl|done].
    intros H. rewrite (IH _ H). revert E. unfold pair_update.
    destruct (vget psi i); [simpl|done].
    destruct (vget psi (i + 1)); [simpl|done].
    destruct (vset psi i _) as [psi0|] eqn:E0; [simpl|done].
    destruct (vget psi0 (i + 1)); [simpl|done].
    intros E1. rewrite (vset_length _ _ _ _ E1). by apply vset_length in E0.
Qed.

End SweepFacts.

(** ** The same body on every rank *)

Section OnRanks.
Context {X Y W : Type}.
Implicit Types (st : list X) (ys : list Y).

(** What a successful pass returns, rank by rank. *)
Lemma on_ranks_Some (f : Z -> X -> option Y) st : forall r ys,
  on_ranks f r st = Some ys ->
  length ys = length st /\
  forall (i : nat) x, st !! i = Some x ->
    exists y, f (r + Z.of_nat i) x = Some y /\ ys !! i = Some y.
Proof.
  induction st as [|x0 st IH]; intros r ys; simpl.
  - intros [= <-]. split; [done|]. intros i x. by rewrite lookup_nil.
  - destruct (f r x0) as [y0|] eqn:E0; [simpl|done].
    destruct (on_ranks f (r + 1) st) as [ys0|] eqn:E1; [simpl|done].
    intros [= <-]. destruct (IH _ _ E1) as [Hlen Hall].
    split; [simpl; by rewrite Hlen|].
    intros [|i] x; simpl.
    + intros [= <-]. exists y0. by rewrite Z.add_0_r.
    + intros Hx. destruct (Hall i x Hx) as (y & Hy & Hys).
      exists y. split; [|done]. rewrite <- Hy. f_equal. lia.
Qed.

(** A pass succeeds when the body does on every rank. *)
Lemma on_ranks_total (f : Z -> X -> option Y) st : forall r,
  (forall (i : nat) x, st !! i = Some x -> is_Some (f (r + Z.of_nat i) x)) ->
  is_Some (on_ranks f r st).
Proof.
  induction st as [|x0 st IH]; intros r Hf; simpl; [by eauto|].
  destruct (Hf O x0 eq_refl) as [y0 E0]. rewrite Z.add_0_r in E0.
  rewrite E0. simpl.
  destruct (IH (r + 1)) as [ys0 E1].
  - intros i x Hx. replace (r + 1 + Z.of_nat i) with (r + Z.of_nat (S i)) by lia.
    by apply Hf.
  - rewrite E1. simpl. by eauto.
Qed.

(** A pass faults when the body does on some rank. *)
Lemma on_ranks_fault (f : Z -> X -> option Y) st r (i : nat) x :
  st !! i = Some x -> f (r + Z.of_nat i) x = None -> on_ranks f r st = None.
Proof.
  intros Hx Hf. destruct (on_ranks f r st) as [ys|] eqn:E; [|done].
  destruct (on_ranks_Some _ _ _ _ E) as [_ Hall].
  destruct (Hall i x Hx) as (y & Hy & _). congruence.
Qed.

Lemma on_ranks_ext (f g : Z -> X -> option Y) st : forall r,
  (forall (i : nat) x, st !! i = Some x ->
     f (r + Z.of_nat i) x = g (r + Z.of_nat i) x) ->
  on_ranks f r st = on_ranks g r st.
Proof.
  induction st as [|x0 st IH]; intros r Hfg; simpl; [done|].
  pose proof (Hfg O x0 eq_refl) as E0. rewrite Z.add_0_r in E0. rewrite E0.
  rewrite (IH (r + 1)); [done|].
  intros i x Hx. replace (r + 1 + Z.of_nat i) with (r + Z.of_nat (S i)) by lia.
  by apply Hfg.
Qed.

(** Two passes in a row are one pass of the composed body. *)
Lemma on_ranks_bind (f : Z -> X -> option Y) (g : Z -> Y -> option W) st :
  forall r,
  on_ranks (fun r x => y ← f r x; g r y) r st
  = (ys ← on_ranks f r st; on_ranks g r ys).
Proof.
  induction st as [|x0 st IH]; intros r; simpl; [done|].
  rewrite IH.
  destruct (f r x0) as [y0|]; simpl; [|done].
  destruct (on_ranks f (r + 1) st) as [ys0|]; simpl; [done|].
  by destruct (g r y0).
Qed.

End OnRanks.

Lemma repeat_steps_app {S : Type} (step : S -> option S) (n m : nat) (st : S) :
  repeat_steps (n + m) step st
  = (st' ← repeat_steps n step st; repeat_steps m step st').
Proof.
  revert st. induction n as [|n IH]; intros st; simpl; [done|].
  destruct (step st) as [st1|]; simpl; [apply IH|done].
Qed.

(** An invariant of the step holds after the loop, which then returns. *)
Lemma repeat_steps_invariant {S : Type} (Inv : S -> Prop)
    (step : S -> option S) :
  (forall st, Inv st -> exists st', step st = Some st' /\ Inv st') ->
  forall steps st, Inv st ->
  exists st', repeat_steps steps step st = Some st' /\ Inv st'.
Proof.
  intros Hstep steps. induction steps as [|n IH]; intros st Hst; simpl.
  - by eauto.
  - destruct (Hstep st Hst) as (st1 & -> & H1). simpl. by apply IH.
Qed.

(** ** The partition *)

Lemma base_div N size : 0 <= N -> 0 < size -> base N size = N `div` size.
Proof. intros. unfold base. by apply Z.quot_div_nonneg. Qed.

Lemma rem_mod N size : 0 <= N -> 0 < size -> rem N size = N `mod` size.
Proof. intros. unfold rem. by apply Z.rem_mod_nonneg. Qed.

Lemma base_rem_eq N size : N = size * base N size + rem N size.
Proof. unfold base, rem. apply Z.quot_rem'. Qed.

Lemma rem_range N size : 0 <= N -> 0 < size -> 0 <= rem N size < size.
Proof. intros. rewrite rem_mod by done. by apply Z.mod_pos_bound. Qed.

Lemma base_nonneg N size : 0 <= N -> 0 < size -> 0 <= base N size.
Proof. intros. rewrite base_div by done. by apply Z.div_pos. Qed.

Lemma base_pos N size : 0 < size <= N -> 1 <= base N size.
Proof.
  intros. rewrite base_div by lia.
  assert (1 * size <= N) as Hle by lia.
  apply Z.div_le_lower_bound; lia.
Qed.

Lemma base_small N size : 0 <= N < size -> base N size = 0.
Proof. intros. rewrite base_div by lia. by apply Z.div_small. Qed.

Lemma rem_small N size : 0 <= N < size -> rem N size = N.
Proof. intros. rewrite rem_mod by lia. by apply Z.mod_small. Qed.

Lemma local_N_cases N size r :
  local_N N size r = base N size + 1 /\ r < rem N size \/
  local_N N size r = base N size /\ rem N size <= r.
Proof. unfold local_N. case_decide; lia. Qed.

Lemma local_N_nonneg N size r : 0 <= N -> 0 < size -> 0 <= local_N N size r.
Proof.
  intros. pose proof (base_nonneg N size).
  destruct (local_N_cases N size r); lia.
Qed.

Lemma local_N_pos N size r : 0 < size <= N -> 1 <= local_N N size r.
Proof.
  intros. pose proof (base_pos N size).
  destruct (local_N_cases N size r); lia.
Qed.

(** No rank holds more than [N] elements: the lengths stay in the
    range of [int] whenever [N] is. *)
Lemma local_N_le N size r :
  0 <= N -> 0 < size -> 0 <= r -> local_N N size r <= N.
Proof.
  intros HN Hs H0. pose proof (base_rem_eq N size) as E.
  pose proof (rem_range N size HN Hs). pose proof (base_nonneg N size HN Hs).
  destruct (local_N_cases N size r) as [[-> Hr]|[-> Hr]]; nia.
Qed.

Lemma Zsum_app l k : Zsum (l ++ k) = Zsum l + Zsum k.
Proof. induction l as [|x l IH]; simpl; [done|]. rewrite IH. lia. Qed.

Lemma offset_0 N size : offset N size 0 = 0.
Proof. done. Qed.

Lemma offset_succ N size r :
  0 <= r -> offset N size (r + 1) = offset N size r + local_N N size r.
Proof.
  intros Hr. unfold offset.
  rewrite <- (Z2Nat.id r) by done. generalize (Z.to_nat r). intros k.
  replace (Z.of_nat k + 1) with (Z.of_nat (S k)) by lia.
  rewrite seqZ_S, fmap_app, Zsum_app, Z.add_0_l. simpl. lia.
Qed.

(** The ranks below [k] hold [k] times [base], plus one for each of
    them that is below [rem]. *)
Lemma offset_closed N size (k : nat) :
  0 <= rem N size ->
  offset N size (Z.of_nat k)
  = Z.of_nat k * base N size + Z.min (Z.of_nat k) (rem N size).
Proof.
  intros Hrem. induction k as [|k IH].
  - rewrite offset_0. lia.
  - replace (Z.of_nat (S k)) with (Z.of_nat k + 1) by lia.
    rewrite offset_succ, IH by lia.
    destruct (local_N_cases N size (Z.of_nat k)); lia.
Qed.

Lemma offset_size N size : 0 <= N -> 0 < size -> offset N size size = N.
Proof.
  intros HN Hs. pose proof (rem_range N size HN Hs).
  pose proof (base_rem_eq N size).
  rewrite <- (Z2Nat.id size) at 2 by lia.
  rewrite offset_closed by lia. rewrite Z2Nat.id by lia. lia.
Qed.

Lemma Zsum_lengths N size : Zsum (lengths N size) = offset N size size.
Proof. done. Qed.

Lemma offset_mono N size r1 r2 :
  0 <= N -> 0 < size -> 0 <= r1 <= r2 -> offset N size r1 <= offset N size r2.
Proof.
  intros HN Hs [H1 H2].
  replace r2 with (r1 + Z.of_nat (Z.to_nat (r2 - r1))) by lia.
  generalize (Z.to_nat (r2 - r1)). intros d. induction d as [|d IH].
  - rewrite Z.add_0_r. lia.
  - replace (r1 + Z.of_nat (S d)) with (r1 + Z.of_nat d + 1) by lia.
    rewrite offset_succ by lia.
    pose proof (local_N_nonneg N size (r1 + Z.of_nat d) HN Hs). lia.
Qed.

(** Every index below the offset of [k] lies in the block of a rank
    below [k]. *)
Lemma offset_covers N size (k : nat) g :
  0 <= g < offset N size (Z.of_nat k) ->
  exists r, 0 <= r < Z.of_nat k /\
            offset N size r <= g < offset N size r + local_N N size r.
Proof.
  induction k as [|k IH]; intros Hg.
  - rewrite offset_0 in Hg. lia.
  - replace (Z.of_nat (S k)) with (Z.of_nat k + 1) in Hg by lia.
    rewrite offset_succ in Hg by lia.
    destruct (decide (g < offset N size (Z.of_nat k))) as [Hlt|Hge].
    + destruct IH as (r & Hr & Hin); [lia|]. exists r. split; [lia|done].
    + exists (Z.of_nat k). split; lia.
Qed.

(** Two blocks that share an index are the same block. *)
Lemma offset_disjoint N size r r' g :
  0 <= N -> 0 < size -> 0 <= r -> 0 <= r' ->
  offset N size r <= g < offset N size r + local_N N size r ->
  offset N size r' <= g < offset N size r' + local_N N size r' ->
  r = r'.
Proof.
  intros HN Hs Hr Hr' Hg Hg'.
  destruct (Z.lt_trichotomy r r') as [Hlt|[->|Hgt]]; [|done|].
  - pose proof (offset_mono N size (r + 1) r' HN Hs).
    rewrite offset_succ in * by lia. lia.
  - pose proof (offset_mono N size (r' + 1) r HN Hs).
    rewrite offset_succ in * by lia. lia.
Qed.

(** ** The boundary overwrite *)

Section BoundaryFacts.
Context {A : ComplexArith}.
Implicit Types (psi : list cplx) (st : list (list cplx)).

Lemma left_rank_None r : left_rank r = None <-> r = 0.
Proof. unfold left_rank. case_decide; split; (done || lia). Qed.

Lemma left_rank_Some r : r <> 0 -> left_rank r = Some (r - 1).
Proof. intros. unfold left_rank. by rewrite decide_False. Qed.

Lemma right_rank_None r size : right_rank r size = None <-> r = size - 1.
Proof. unfold right_rank. case_decide; split; (done || lia). Qed.

Lemma right_rank_Some r size : r <> size - 1 -> right_rank r size = Some (r + 1).
Proof. intros. unfold right_rank. by rewrite decide_False. Qed.

Lemma capture_Some n psi :
  1 <= n -> Z.of_nat (length psi) = n ->
  exists l r, vget psi 0 = Some l /\ vget psi (n - 1) = Some r /\
              capture n psi = Some (Halo l r).
Proof.
  intros Hn Hlen.
  destruct (proj2 (vget_is_Some psi 0)) as [l Hl]; [lia|].
  destruct (proj2 (vget_is_Some psi (n - 1))) as [r Hr]; [lia|].
  exists l, r. unfold capture. rewrite Hl, Hr. done.
Qed.

(** An empty segment has neither boundary element. *)
Lemma capture_empty n : capture n [] = None.
Proof. done. Qed.

Lemma vget_vset_eq psi i x psi' :
  vset psi i x = Some psi' -> vget psi' i = Some x.
Proof.
  unfold vset, vget. case_decide as Hi; [|done]. intros [= <-].
  rewrite decide_True by lia. apply list_lookup_insert_eq. lia.
Qed.

Lemma vget_vset_ne psi i j x psi' :
  vset psi i x = Some psi' -> i <> j -> vget psi' j = vget psi j.
Proof.
  unfold vset, vget. case_decide as Hi; [|done]. intros [= <-] Hne.
  case_decide; [|done]. apply list_lookup_insert_ne. lia.
Qed.

Lemma apply_boundaries_total r size n l rr psi :
  1 <= n -> Z.of_nat (length psi) = n ->
  is_Some (apply_boundaries r size n l rr psi).
Proof.
  intros Hn Hlen. unfold apply_boundaries.
  assert (exists psi1, (if left_rank r is Some _ then vset psi 0 l else Some psi)
                       = Some psi1 /\ length psi1 = length psi)
    as (psi1 & -> & Hlen1).
  { destruct (left_rank r); [|by eauto].
    destruct (proj2 (vset_is_Some psi 0 l)) as [psi1 E]; [lia|].
    exists psi1. split; [done|]. by eapply vset_length. }
  simpl. destruct (right_rank r size); [|by eauto].
  apply vset_is_Some. lia.
Qed.

Lemma apply_boundaries_length r size n l rr psi psi' :
  apply_boundaries r size n l rr psi = Some psi' -> length psi' = length psi.
Proof.
  unfold apply_boundaries.
  destruct (left_rank r).
  - destruct (vset psi 0 l) as [psi1|] eqn:E1; [simpl|done].
    apply vset_length in E1. destruct (right_rank r size).
    + intros E2. apply vset_length in E2. congruence.
    + intros [= <-]. done.
  - simpl. destruct (right_rank r size).
    + intros E2. by apply vset_length in E2.
    + by intros [= <-].
Qed.

(** The right overwrite is the last write: with a right neighbour the
    last slot holds what that neighbour sent. *)
Lemma apply_boundaries_last r size n l rr psi psi' :
  apply_boundaries r size n l rr psi = Some psi' ->
  is_Some (right_rank r size) ->
  vget psi' (n - 1) = Some rr.
Proof.
  unfold apply_boundaries. intros H [q Hq]. rewrite Hq in H.
  destruct (match left_rank r with Some _ => vset psi 0 l | None => Some psi end)
    as [psi1|]; [simpl in H|done].
  by eapply vget_vset_eq.
Qed.

(** With a left neighbour the first slot holds what that neighbour
    sent, unless the right overwrite hits the same slot. *)
Lemma apply_boundaries_first r size n l rr psi psi' :
  apply_boundaries r size n l rr psi = Some psi' ->
  is_Some (left_rank r) ->
  right_rank r size = None \/ n <> 1 ->
  vget psi' 0 = Some l.
Proof.
  unfold apply_boundaries. intros H [q Hq] Hor. rewrite Hq in H.
  destruct (vset psi 0 l) as [psi1|] eqn:E1; [simpl in H|done].
  apply vget_vset_eq in E1.
  destruct (right_rank r size) as [q'|] eqn:Hr.
  - destruct Hor as [?|Hn]; [done|].
    rewrite (vget_vset_ne _ _ 0 _ _ H) by lia. done.
  - by injection H as <-.
Qed.

(** On a one-element segment with both neighbours the single slot ends
    up with the right neighbour's value. *)
Lemma apply_boundaries_single r size l rr psi psi' :
  apply_boundaries r size 1 l rr psi = Some psi' ->
  is_Some (right_rank r size) ->
  vget psi' 0 = Some rr.
Proof. intros H Hr. by apply (apply_boundaries_last _ _ 1 _ _ _ _ H Hr). Qed.

(** Without a left neighbour the first slot is not written, unless the
    right overwrite hits it. *)
Lemma apply_boundaries_first_edge r size n l rr psi psi' :
  apply_boundaries r size n l rr psi = Some psi' ->
  left_rank r = None ->
  right_rank r size = None \/ n <> 1 ->
  vget psi' 0 = vget psi 0.
Proof.
  unfold apply_boundaries. intros H Hl Hor. rewrite Hl in H. simpl in H.
  destruct (right_rank r size) as [q'|] eqn:Hr.
  - destruct Hor as [?|Hn]; [done|].
    rewrite (vget_vset_ne _ _ 0 _ _ H) by lia. done.
  - by injection H as <-.
Qed.

(** Without a right neighbour the last slot is not written, unless the
    left overwrite hits it. *)
Lemma apply_boundaries_last_edge r size n l rr psi psi' :
  apply_boundaries r size n l rr psi = Some psi' ->
  right_rank r size = None ->
  left_rank r = None \/ n <> 1 ->
  vget psi' (n - 1) = vget psi (n - 1).
Proof.
  unfold apply_boundaries. intros H Hr Hor. rewrite Hr in H.
  destruct (left_rank r) as [q|] eqn:Hl.
  - destruct Hor as [?|Hn]; [done|].
    destruct (vset psi 0 l) as [psi1|] eqn:E1; [simpl in H|done].
    injection H as <-. rewrite (vget_vset_ne _ _ (n - 1) _ _ E1) by lia. done.
  - simpl in H. by injection H as <-.
Qed.

(** The slots strictly inside the segment are never written. *)
Lemma apply_boundaries_inner r size n l rr psi psi' j :
  apply_boundaries r size n l rr psi = Some psi' ->
  j <> 0 -> j <> n - 1 ->
  vget psi' j = vget psi j.
Proof.
  unfold apply_boundaries. intros H Hj0 Hjn.
  assert (forall psi0 psi1,
    (if left_rank r is Some _ then vset psi0 0 l else Some psi0) = Some psi1 ->
    vget psi1 j = vget psi0 j) as Hleft.
  { intros psi0 psi1. destruct (left_rank r).
    - intros E. by apply (vget_vset_ne _ _ _ _ _ E).
    - by intros [= <-]. }
  destruct (match left_rank r with Some _ => vset psi 0 l | None => Some psi end)
    as [psi1|] eqn:E1; [simpl in H|done].
  rewrite <- (Hleft _ _ E1). destruct (right_rank r size).
  - by apply (vget_vset_ne _ _ _ _ _ H).
  - by injection H as <-.
Qed.

End BoundaryFacts.

(** ** One step of the whole job *)

Section ParallelFacts.
Context {A : ComplexArith}.
Implicit Types (psi : list cplx) (st : list (list cplx)).

Lemma well_shaped_lookup N size st :
  well_shaped N size st <->
  length st = Z.to_nat size /\
  forall (i : nat) psi, st !! i = Some psi ->
    Z.of_nat (length psi) = local_N N size (Z.of_nat i).
Proof.
  unfold well_shaped, ranks. rewrite Forall2_same_length_lookup, length_seqZ.
  split; intros [Hlen Hall]; (split; [done|]).
  - intros i psi Hpsi. apply (Hall i); [|done].
    apply lookup_seqZ. split; [lia|].
    apply lookup_lt_Some in Hpsi. lia.
  - intros i r psi Hr Hpsi. apply lookup_seqZ in Hr as [-> _].
    rewrite Z.add_0_l. by apply Hall.
Qed.

Lemma well_shaped_vget N size st r psi :
  well_shaped N size st -> vget st r = Some psi ->
  0 <= r < size /\ Z.of_nat (length psi) = local_N N size r.
Proof.
  intros [Hlen Hall]%well_shaped_lookup Hpsi.
  assert (is_Some (vget st r)) as Hr%vget_is_Some by eauto.
  unfold vget in Hpsi. rewrite decide_True in Hpsi by lia.
  apply Hall in Hpsi. rewrite Z2Nat.id in Hpsi by lia. split; [lia|done].
Qed.

Lemma well_shaped_has N size st r :
  well_shaped N size st -> 0 <= r < size -> is_Some (vget st r).
Proof.
  intros [Hlen _]%well_shaped_lookup Hr. apply vget_is_Some. lia.
Qed.

(** Every rank allocates its [local_N] ones. *)
Lemma parallel_init_Some N size :
  0 <= N -> 0 < size ->
  parallel_init N size
  = Some ((fun r => replicate (Z.to_nat (local_N N size r)) c_one) <$> ranks size).
Proof.
  intros HN Hs. unfold parallel_init. apply mapM_Some_2.
  apply Forall2_fmap_r, Forall_Forall2_diag, Forall_forall.
  intros r _. unfold alloc. rewrite decide_True; [done|].
  by apply local_N_nonneg.
Qed.

Lemma parallel_init_well_shaped N size st :
  0 <= N -> 0 < size -> parallel_init N size = Some st -> well_shaped N size st.
Proof.
  intros HN Hs. rewrite parallel_init_Some by done. intros [= <-].
  apply Forall2_fmap_r, Forall_Forall2_diag, Forall_forall.
  intros r _. simpl. rewrite length_replicate, Z2Nat.id; [done|].
  by apply local_N_nonneg.
Qed.

(** The step is the halo phase followed by the local sweep of every
    rank. *)
Lemma parallel_step_split N size st :
  parallel_step N size st
  = (st' ← halo_phase N size st;
     on_ranks (fun r psi => local_update (local_N N size r) psi) 0 st').
Proof.
  unfold parallel_step, halo_phase.
  destruct (on_ranks _ 0 st) as [sent|]; [simpl|done].
  rewrite <- on_ranks_bind. apply on_ranks_ext. intros i psi _.
  unfold worker_step. destruct (exchange sent _ size) as [[l rr]|]; done.
Qed.

Lemma on_ranks_sweep N size st :
  well_shaped N size st ->
  on_ranks (fun r psi => local_update (local_N N size r) psi) 0 st
  = Some (gauss_seidel <$> st).
Proof.
  intros [_ Hall]%well_shaped_lookup.
  assert (forall r,
    (forall (i : nat) psi, st !! i = Some psi ->
       Z.of_nat (length psi) = local_N N size (r + Z.of_nat i)) ->
    on_ranks (fun r psi => local_update (local_N N size r) psi) r st
    = Some (gauss_seidel <$> st)) as Hgen; [|by apply Hgen].
  clear Hall. induction st as [|psi st IH]; intros r Hall; simpl; [done|].
  pose proof (Hall O psi eq_refl) as H0. rewrite Z.add_0_r in H0.
  rewrite <- H0, local_update_gauss_seidel. simpl.
  rewrite IH; [done|]. intros i psi' Hi.
  replace (r + 1 + Z.of_nat i) with (r + Z.of_nat (S i)) by lia. by apply Hall.
Qed.

Lemma well_shaped_sweep N size st :
  well_shaped N size st -> well_shaped N size (gauss_seidel <$> st).
Proof.
  unfold well_shaped. intros H. apply Forall2_fmap_r.
  eapply Forall2_impl; [exact H|]. intros r psi. simpl.
  by rewrite length_gauss_seidel.
Qed.

(** What every rank captures when no segment is empty. *)
Lemma capture_all N size st :
  0 < size <= N -> well_shaped N size st ->
  exists sent,
    on_ranks (fun r psi => capture (local_N N size r) psi) 0 st = Some sent /\
    length sent = length st /\
    forall r psi, vget st r = Some psi ->
      exists l rr, vget psi 0 = Some l /\
                   vget psi (Z.of_nat (length psi) - 1) = Some rr /\
                   vget sent r = Some (Halo l rr).
Proof.
  intros HN Hwf. pose proof Hwf as [Hlen Hall]%well_shaped_lookup.
  destruct (on_ranks_total
              (fun r psi => capture (local_N N size r) psi) st 0) as [sent E].
  { intros i psi Hpsi. rewrite Z.add_0_l.
    destruct (capture_Some (local_N N size (Z.of_nat i)) psi)
      as (l & rr & _ & _ & ->); [by apply local_N_pos|by apply Hall|by eauto]. }
  exists sent. destruct (on_ranks_Some _ _ _ _ E) as [Hls Hsent].
  split; [done|]. split; [done|]. intros r psi Hpsi.
  destruct (well_shaped_vget _ _ _ _ _ Hwf Hpsi) as [Hr Hn].
  unfold vget in Hpsi. rewrite decide_True in Hpsi by lia.
  destruct (Hsent _ _ Hpsi) as (h & Hh & Hlook).
  rewrite Z.add_0_l, Z2Nat.id in Hh by lia.
  destruct (capture_Some (local_N N size r) psi)
    as (l & rr & Hl & Hrr & Hc); [by apply local_N_pos|done|].
  exists l, rr. rewrite Hn. split; [done|]. split; [done|].
  unfold vget. rewrite decide_True by lia. congruence.
Qed.

(** What [rank] receives: its left neighbour's last element and its
    right neighbour's first element, as they were when captured. *)
Lemma exchange_spec N size st sent r :
  well_shaped N size st -> 0 <= r < size ->
  (forall q psi, vget st q = Some psi ->
     exists l rr, vget psi 0 = Some l /\
                  vget psi (Z.of_nat (length psi) - 1) = Some rr /\
                  vget sent q = Some (Halo l rr)) ->
  exists l rr,
    exchange sent r size = Some (l, rr) /\
    match left_rank r with
    | None => l = c_zero
    | Some p => last_of st p = Some l
    end /\
    match right_rank r size with
    | None => rr = c_zero
    | Some p => first_of st p = Some rr
    end.
Proof.
  intros Hwf Hr Hsent. unfold exchange.
  assert (exists rr, recv sent (right_rank r size) left_send c_zero = Some rr /\
            match right_rank r size with
            | None => rr = c_zero
            | Some p => first_of st p = Some rr
            end) as (rr & -> & Hrr).
  { unfold right_rank. case_decide as Hq; simpl; [by eauto|].
    destruct (well_shaped_has N size st (r + 1) Hwf) as [psiR HR]; [lia|].
    destruct (Hsent _ _ HR) as (a & b & Ha & _ & Hs).
    exists a. rewrite Hs. unfold first_of. rewrite HR. done. }
  assert (exists l, recv sent (left_rank r) right_send c_zero = Some l /\
            match left_rank r with
            | None => l = c_zero
            | Some p => last_of st p = Some l
            end) as (l & -> & Hl).
  { unfold left_rank. case_decide as Hq; simpl; [by eauto|].
    destruct (well_shaped_has N size st (r - 1) Hwf) as [psiL HL]; [lia|].
    destruct (Hsent _ _ HL) as (a & b & _ & Hb & Hs).
    exists b. rewrite Hs. unfold last_of. rewrite HL. done. }
  simpl. by eauto.
Qed.

(** The halo phase returns when no segment is empty, keeps the shape,
    and gives every rank its segment with the boundaries overwritten. *)
Lemma halo_phase_spec N size st :
  0 < size <= N -> well_shaped N size st ->
  exists st',
    halo_phase N size st = Some st' /\ well_shaped N size st' /\
    forall r psi, vget st r = Some psi ->
      exists l rr psi',
        match left_rank r with
        | None => l = c_zero
        | Some p => last_of st p = Some l
        end /\
        match right_rank r size with
        | None => rr = c_zero
        | Some p => first_of st p = Some rr
        end /\
        apply_boundaries r size (local_N N size r) l rr psi = Some psi' /\
        vget st' r = Some psi'.
Proof.
  intros HN Hwf. unfold halo_phase.
  destruct (capture_all N size st HN Hwf) as (sent & -> & _ & Hsent). simpl.
  pose proof Hwf as [Hlen Hall]%well_shaped_lookup.
  set (body := fun r psi =>
         '(left_recv, right_recv) ← exchange sent r size;
         apply_boundaries r size (local_N N size r) left_recv right_recv psi).
  assert (forall r psi, vget st r = Some psi ->
    exists l rr psi',
      match left_rank r with
      | None => l = c_zero
      | Some p => last_of st p = Some l
      end /\
      match right_rank r size with
      | None => rr = c_zero
      | Some p => first_of st p = Some rr
      end /\
      apply_boundaries r size (local_N N size r) l rr psi = Some psi' /\
      body r psi = Some psi') as Hbody.
  { intros r psi Hpsi.
    destruct (well_shaped_vget _ _ _ _ _ Hwf Hpsi) as [Hr Hn].
    destruct (exchange_spec N size st sent r Hwf Hr Hsent)
      as (l & rr & He & Hl & Hrr).
    destruct (apply_boundaries_total r size (local_N N size r) l rr psi)
      as [psi' Hab]; [by apply local_N_pos|done|].
    exists l, rr, psi'. unfold body. rewrite He. simpl. done. }
  destruct (on_ranks_total body st 0) as [st' E].
  { intros i psi Hpsi. rewrite Z.add_0_l.
    destruct (Hbody (Z.of_nat i) psi) as (? & ? & ? & _ & _ & _ & ->);
      [by rewrite vget_nat|by eauto]. }
  exists st'. split; [done|].
  destruct (on_ranks_Some _ _ _ _ E) as [Hlen' Hst'].
  split.
  - apply well_shaped_lookup. split; [congruence|]. intros i psi' Hi.
    destruct (lookup_lt_is_Some_2 st i) as [psi Hpsi].
    { rewrite <- Hlen'. by eapply lookup_lt_Some. }
    destruct (Hst' _ _ Hpsi) as (y & Hy & Hlook).
    assert (y = psi') as -> by congruence.
    rewrite Z.add_0_l in Hy. unfold body in Hy.
    destruct (exchange sent _ size) as [[l rr]|]; [simpl in Hy|done].
    rewrite (apply_boundaries_length _ _ _ _ _ _ _ Hy). by apply Hall.
  - intros r psi Hpsi.
    destruct (Hbody r psi Hpsi) as (l & rr & psi' & Hl & Hrr & Hab & Hb).
    exists l, rr, psi'. do 3 (split; [done|]).
    destruct (well_shaped_vget _ _ _ _ _ Hwf Hpsi) as [Hr _].
    unfold vget in Hpsi |- *. rewrite decide_True in Hpsi |- * by lia.
    destruct (Hst' _ _ Hpsi) as (y & Hy & Hlook).
    rewrite Z.add_0_l, Z2Nat.id in Hy by lia. congruence.
Qed.

(** With no empty segment the step returns and keeps the shape. *)
Lemma parallel_step_well_shaped N size st :
  0 < size <= N -> well_shaped N size st ->
  exists st', parallel_step N size st = Some st' /\ well_shaped N size st'.
Proof.
  intros HN Hwf. rewrite parallel_step_split.
  destruct (halo_phase_spec N size st HN Hwf) as (st1 & -> & Hwf1 & _). simpl.
  rewrite on_ranks_sweep by done.
  eexists. split; [done|]. by apply well_shaped_sweep.
Qed.

Lemma parallel_loop_well_shaped N size steps st :
  0 < size <= N -> well_shaped N size st ->
  exists st', parallel_loop N size steps st = Some st' /\ well_shaped N size st'.
Proof.
  intros HN. apply repeat_steps_invariant. intros st0.
  by apply parallel_step_well_shaped.
Qed.

Lemma parallel_run_well_shaped N size steps :
  0 < size <= N ->
  exists st, parallel_run N size steps = Some st /\ well_shaped N size st.
Proof.
  intros HN. unfold parallel_run.
  destruct (parallel_init N size) as [st0|] eqn:E.
  - simpl. apply parallel_loop_well_shaped; [done|].
    apply (parallel_init_well_shaped N size st0); (lia || done).
  - rewrite parallel_init_Some in E by lia. done.
Qed.

Lemma reachable_well_shaped N size st :
  0 < size <= N -> reachable N size st -> well_shaped N size st.
Proof.
  intros HN [steps Hrun].
  destruct (parallel_run_well_shaped N size steps HN) as (st' & E & Hwf).
  congruence.
Qed.

End ParallelFacts.

(** ** The serial loop, and lengths *)

Section RunFacts.
Context {A : ComplexArith}.
Implicit Types (psi : list cplx) (st : list (list cplx)).

Lemma length_iter_gauss_seidel (k : nat) psi :
  length (Nat.iter k gauss_seidel psi) = length psi.
Proof.
  induction k as [|k IH]; simpl; [done|]. by rewrite length_gauss_seidel.
Qed.

Lemma serial_loop_iter N steps : forall psi,
  Z.of_nat (length psi) = N ->
  serial_loop N steps psi = Some (Nat.iter steps gauss_seidel psi).
Proof.
  unfold serial_loop.
  induction steps as [|k IH]; intros psi Hlen; simpl; [done|].
  unfold serial_step at 1. rewrite <- Hlen at 1.
  rewrite local_update_gauss_seidel. simpl.
  rewrite IH by (by rewrite length_gauss_seidel).
  f_equal. clear. induction k as [|k IH]; simpl; [done|]. by rewrite IH.
Qed.

Lemma serial_run_iter N steps :
  0 <= N ->
  serial_run N steps
  = Some (Nat.iter steps gauss_seidel (replicate (Z.to_nat N) c_one)).
Proof.
  intros HN. unfold serial_run, alloc. rewrite decide_True by done. simpl.
  apply serial_loop_iter. rewrite length_replicate. lia.
Qed.

Lemma on_ranks_Forall2 {X Y : Type} (P : X -> Y -> Prop)
    (f : Z -> X -> option Y) (xs : list X) (ys : list Y) r :
  (forall q x y, f q x = Some y -> P x y) ->
  on_ranks f r xs = Some ys -> Forall2 P xs ys.
Proof.
  intros HP E. destruct (on_ranks_Some _ _ _ _ E) as [Hlen Hall].
  apply Forall2_same_length_lookup. split; [done|].
  intros i x y Hx Hy. destruct (Hall i x Hx) as (y' & Hf & Hy').
  assert (y' = y) as -> by congruence. by eapply HP.
Qed.

Lemma halo_phase_lengths N size st st' :
  halo_phase N size st = Some st' ->
  Forall2 (fun psi psi' => length psi' = length psi) st st'.
Proof.
  unfold halo_phase.
  destruct (on_ranks _ 0 st) as [sent|]; [simpl|done].
  apply on_ranks_Forall2. intros q psi psi'.
  destruct (exchange sent q size) as [[l rr]|]; [simpl|done].
  apply apply_boundaries_length.
Qed.

Lemma parallel_step_lengths N size st st' :
  parallel_step N size st = Some st' ->
  Forall2 (fun psi psi' => length psi' = length psi) st st'.
Proof.
  rewrite parallel_step_split.
  destruct (halo_phase N size st) as [st1|] eqn:E1; [simpl|done].
  intros E2. apply halo_phase_lengths in E1.
  apply (on_ranks_Forall2 (fun psi psi' => length psi' = length psi)) in E2.
  - apply Forall2_same_length_lookup.
    apply Forall2_same_length_lookup in E1 as [L1 H1].
    apply Forall2_same_length_lookup in E2 as [L2 H2].
    split; [congruence|]. intros i psi psi' Hpsi Hpsi'.
    destruct (lookup_lt_is_Some_2 st1 i) as [psi1 Hpsi1].
    { rewrite <- L1. by eapply lookup_lt_Some. }
    rewrite (H2 i psi1 psi' Hpsi1 Hpsi'). by apply (H1 i).
  - intros q psi psi'. apply local_update_length.
Qed.

(** A single rank: nothing is exchanged, the step is the serial step. *)
Lemma parallel_step_single N psi :
  1 <= N -> Z.of_nat (length psi) = N ->
  parallel_step N 1 [psi] = Some [gauss_seidel psi].
Proof.
  intros HN Hlen.
  assert (local_N N 1 0 = N) as Hloc.
  { unfold local_N, base, rem. rewrite Z.quot_1_r, Z.rem_1_r.
    rewrite decide_False by lia. lia. }
  unfold parallel_step. cbn -[local_N capture]. rewrite Hloc.
  destruct (capture_Some N psi HN Hlen) as (l & rr & _ & _ & ->).
  unfold worker_step. cbn -[local_N local_update]. rewrite Hloc.
  assert (exchange [Halo l rr] 0 1 = Some (c_zero, c_zero)) as -> by done.
  cbn -[local_update].
  assert (apply_boundaries 0 1 N c_zero c_zero psi = Some psi) as -> by done.
  cbn -[local_update].
  rewrite <- Hlen, local_update_gauss_seidel. done.
Qed.

Lemma parallel_loop_single N steps : forall psi,
  1 <= N -> Z.of_nat (length psi) = N ->
  parallel_loop N 1 steps [psi] = Some [Nat.iter steps gauss_seidel psi].
Proof.
  unfold parallel_loop.
  induction steps as [|k IH]; intros psi HN Hlen; simpl; [done|].
  rewrite parallel_step_single by done. simpl.
  rewrite IH by (done || by rewrite length_gauss_seidel).
  do 2 f_equal. clear. induction k as [|k IH]; simpl; [done|]. by rewrite IH.
Qed.

Lemma parallel_run_single N steps :
  1 <= N ->
  parallel_run N 1 steps
  = Some [Nat.iter steps gauss_seidel (replicate (Z.to_nat N) c_one)].
Proof.
  intros HN. unfold parallel_run. rewrite parallel_init_Some by lia.
  assert (local_N N 1 0 = N) as Hloc.
  { unfold local_N, base, rem. rewrite Z.quot_1_r, Z.rem_1_r.
    rewrite decide_False by lia. lia. }
  change (ranks 1) with [0]. cbn -[local_N parallel_loop].
  rewrite Hloc. apply parallel_loop_single; [done|].
  rewrite length_replicate. lia.
Qed.

(** The state after [n] steps is the one a longer run passes through
    on its way. *)
Lemma parallel_run_app N size (n m : nat) :
  parallel_run N size (n + m)
  = (st ← parallel_run N size n; parallel_loop N size m st).
Proof.
  unfold parallel_run, parallel_loop.
  destruct (parallel_init N size) as [st0|]; [simpl|done].
  apply repeat_steps_app.
Qed.

(** With fewer elements than ranks the last rank holds nothing, and the
    first step reads outside its vector. *)
Lemma parallel_step_fault N size st :
  0 <= N < size -> well_shaped N size st -> parallel_step N size st = None.
Proof.
  intros HN Hwf. unfold parallel_step.
  destruct (well_shaped_has N size st (size - 1) Hwf) as [psi Hpsi]; [lia|].
  destruct (well_shaped_vget _ _ _ _ _ Hwf Hpsi) as [_ Hlen].
  assert (local_N N size (size - 1) = 0) as Hloc.
  { unfold local_N. rewrite base_small, rem_small by done.
    rewrite decide_False by lia. lia. }
  rewrite Hloc in Hlen. destruct psi as [|? ?]; [|simpl in Hlen; lia].
  unfold vget in Hpsi. rewrite decide_True in Hpsi by lia.
  rewrite (on_ranks_fault _ st 0 _ _ Hpsi); [done|].
  apply capture_empty.
Qed.

End RunFacts.

(** * The claims, for every implementation of the arithmetic *)

Section Claims.
Context {A : ComplexArith}.
Implicit Types (psi : list cplx) (st : list (list cplx)).

Lemma well_shaped_same_lengths N size st st' :
  well_shaped N size st ->
  Forall2 (fun psi psi' => length psi' = length psi) st st' ->
  well_shaped N size st'.
Proof.
  intros [Hlen Hall]%well_shaped_lookup [Hl Hs]%Forall2_same_length_lookup.
  apply well_shaped_lookup. split; [congruence|]. intros i psi' Hpsi'.
  destruct (lookup_lt_is_Some_2 st i) as [psi Hpsi].
  { rewrite Hl. by eapply lookup_lt_Some. }
  rewrite (Hs i psi psi' Hpsi Hpsi'). by apply Hall.
Qed.

(** C1, amended.  With a single worker the distributed program is the
    serial one: for every [N >= 1] and every number of steps both
    return, and the one segment of the distributed run is the serial
    state, element for element. *)
Theorem C1_single_worker_equivalence (N : Z) (steps : nat) :
  1 <= N ->
  exists psi,
    serial_run N steps = Some psi /\
    parallel_run N 1 steps = Some [psi] /\
    gather <$> parallel_run N 1 steps = serial_run N steps.
Proof.
  intros HN. exists (Nat.iter steps gauss_seidel (replicate (Z.to_nat N) c_one)).
  rewrite serial_run_iter by lia. rewrite parallel_run_single by done.
  split; [done|]. split; [done|]. unfold gather. simpl. by rewrite app_nil_r.
Qed.

(** C2, amended.  The partition has no error path: for every [N >= 0]
    and [size >= 1], [N < size] included, every rank allocates the
    segment its [local_N] gives and the job enters the step loop; the
    only exit before the allocation is the usage exit for a missing
    argument. *)
Theorem C2_no_partition_error (N size : Z) (steps : nat) :
  0 <= N -> 1 <= size ->
  exists st,
    parallel_init N size = Some st /\
    well_shaped N size st /\
    st = (fun n => replicate (Z.to_nat n) c_one) <$> lengths N size /\
    parallel_main (Some N) size steps = Ran st (parallel_loop N size steps st) /\
    parallel_main None size steps = UsageExit.
Proof.
  intros HN Hs. eexists. split; [apply parallel_init_Some; lia|].
  split; [apply parallel_init_well_shaped; [done|lia|apply parallel_init_Some; lia]|].
  split; [unfold lengths; by rewrite <- list_fmap_compose|].
  split; [|done]. unfold parallel_main. by rewrite parallel_init_Some by lia.
Qed.

(** C3.  For [N >= 1], [size >= 1], [N >= size]: the lengths
    [N/size + (r < N mod size ? 1 : 0)] sum to [N], and the offsets
    (each the sum of the lengths below it) start at 0, advance by the
    lengths, end at [N], and put every global index in [0, N) in the
    block of exactly one rank. *)
Theorem C3_partition_complete (N size : Z) :
  1 <= N -> 1 <= size -> size <= N ->
  (forall r, local_N N size r
             = N `div` size + (if decide (r < N `mod` size) then 1 else 0)) /\
  Zsum (lengths N size) = N /\
  offset N size 0 = 0 /\
  (forall r, 0 <= r < size ->
     offset N size (r + 1) = offset N size r + local_N N size r) /\
  offset N size size = N /\
  (forall g, 0 <= g < N ->
     exists r, 0 <= r < size /\
       offset N size r <= g < offset N size r + local_N N size r /\
       forall r', 0 <= r' < size ->
         offset N size r' <= g < offset N size r' + local_N N size r' ->
         r' = r).
Proof.
  intros HN Hs Hle.
  split; [intros r; unfold local_N; by rewrite base_div, rem_mod by lia|].
  split; [rewrite Zsum_lengths; apply offset_size; lia|].
  split; [done|].
  split; [intros r Hr; apply offset_succ; lia|].
  split; [apply offset_size; lia|].
  intros g Hg. destruct (offset_covers N size (Z.to_nat size) g) as (r & Hr & Hin).
  { rewrite Z2Nat.id by lia. rewrite offset_size by lia. done. }
  exists r. split; [lia|]. split; [done|].
  intros r' Hr' Hin'. apply (offset_disjoint N size r' r g); (lia || done).
Qed.

(** C4.  One serial step, and the local sweep of a worker, runs the
    pairs [(i, i+1)], [i = 0 .. L-2], in increasing order; pair [i]
    sets [segment[i]] to [cos(J dt) segment[i] - 1i sin(J dt) segment[i+1]]
    and [segment[i+1]] to [cos(J dt) segment[i+1] - 1i sin(J dt) temp],
    [temp] being [segment[i]] before the pair; so pair [i+1] reads the
    [segment[i+1]] that pair [i] wrote. *)
Theorem C4_sweep_is_sequential (psi : list cplx) :
  (forall pre a b rest,
     pair_update (pre ++ a :: b :: rest) (Z.of_nat (length pre))
     = Some (pre ++ csub (dmul_c cos_Jdt a) (cmul (cmul_d imag_1 sin_Jdt) b)
                 :: csub (dmul_c cos_Jdt b) (cmul (cmul_d imag_1 sin_Jdt) a)
                 :: rest)) /\
  serial_step (Z.of_nat (length psi)) psi
  = for_each (seqZ 0 (Z.of_nat (length psi) - 1)) pair_update psi /\
  serial_step (Z.of_nat (length psi)) psi = Some (gauss_seidel psi) /\
  local_update (Z.of_nat (length psi)) psi = Some (gauss_seidel psi) /\
  (forall a b c rest,
     gauss_seidel (a :: b :: c :: rest)
     = upd a b :: upd (upd b a) c :: sweep_from (upd c (upd b a)) rest) /\
  (forall N size st,
     well_shaped N size st ->
     parallel_step N size st
     = (st' ← halo_phase N size st;
        Some ((gauss_seidel <$> st') : list (list cplx)))).
Proof.
  split; [intros; apply pair_update_at|].
  split; [unfold serial_step, local_update, for_range; by rewrite Z.sub_0_r|].
  split; [apply local_update_gauss_seidel|].
  split; [apply local_update_gauss_seidel|].
  split; [done|].
  intros N size st Hwf. rewrite parallel_step_split.
  destruct (halo_phase N size st) as [st1|] eqn:E; [simpl|done].
  apply on_ranks_sweep. eapply well_shaped_same_lengths; [exact Hwf|].
  by eapply halo_phase_lengths.
Qed.

(** C5, amended.  In every state the step loop reaches, the halo
    phase leaves the element at global index 0 as it is when worker 0
    holds at least two elements or is the only worker, and the element
    at global index [N-1] as it is when the highest rank holds at least
    two elements or is the only worker: the overwrite on the side
    without a neighbour is skipped. *)
Theorem C5_domain_edges_kept (N size : Z) (steps : nat) st :
  1 <= size <= N ->
  parallel_run N size steps = Some st ->
  exists st',
    halo_phase N size st = Some st' /\
    is_Some (first_of st 0) /\
    is_Some (last_of st (size - 1)) /\
    (size = 1 \/ 2 <= local_N N size 0 ->
       first_of st' 0 = first_of st 0) /\
    (size = 1 \/ 2 <= local_N N size (size - 1) ->
       last_of st' (size - 1) = last_of st (size - 1)).
Proof.
  intros HN Hrun.
  assert (well_shaped N size st) as Hwf.
  { apply reachable_well_shaped; [lia|]. by exists steps. }
  destruct (halo_phase_spec N size st) as (st' & E & Hwf' & Hst'); [lia|done|].
  exists st'. split; [done|].
  destruct (well_shaped_has N size st 0 Hwf) as [psi0 H0]; [lia|].
  destruct (well_shaped_has N size st (size - 1) Hwf) as [psiL HL]; [lia|].
  destruct (well_shaped_vget _ _ _ _ _ Hwf H0) as [_ Hn0].
  destruct (well_shaped_vget _ _ _ _ _ Hwf HL) as [_ HnL].
  pose proof (local_N_pos N size 0 ltac:(lia)) as Hp0.
  pose proof (local_N_pos N size (size - 1) ltac:(lia)) as HpL.
  destruct (Hst' _ _ H0) as (l0 & rr0 & psi0' & _ & _ & Hab0 & H0').
  destruct (Hst' _ _ HL) as (lL & rrL & psiL' & _ & _ & HabL & HL').
  pose proof (apply_boundaries_length _ _ _ _ _ _ _ Hab0) as Hlen0.
  pose proof (apply_boundaries_length _ _ _ _ _ _ _ HabL) as HlenL.
  unfold first_of, last_of. rewrite H0, HL, H0', HL'. simpl.
  split; [apply vget_is_Some; lia|].
  split; [apply vget_is_Some; lia|].
  split.
  - intros Hor. apply (apply_boundaries_first_edge _ _ _ _ _ _ _ Hab0).
    + by apply left_rank_None.
    + destruct Hor as [->|Hge]; [left; by apply right_rank_None|right; lia].
  - intros Hor. rewrite HlenL, HnL.
    apply (apply_boundaries_last_edge _ _ _ _ _ _ _ HabL).
    + by apply right_rank_None.
    + destruct Hor as [->|Hge]; [left; by apply left_rank_None|right; lia].
Qed.

(** C6, amended.  In every state the step loop reaches, after the halo
    phase the last element of a worker with a right neighbour is that
    neighbour's first element as it was before the exchange, and the
    first element of a worker with a left neighbour is that neighbour's
    last element as it was before the exchange, provided the worker
    holds at least two elements or has no right neighbour.  The values
    are taken as they are. *)
Theorem C6_halo_values (N size : Z) (steps : nat) st (r : Z) :
  1 <= size <= N ->
  parallel_run N size steps = Some st ->
  0 <= r < size ->
  exists st',
    halo_phase N size st = Some st' /\
    (r < size - 1 ->
       exists x, first_of st (r + 1) = Some x /\ last_of st' r = Some x) /\
    (0 < r -> r = size - 1 \/ 2 <= local_N N size r ->
       exists x, last_of st (r - 1) = Some x /\ first_of st' r = Some x).
Proof.
  intros HN Hrun Hr.
  assert (well_shaped N size st) as Hwf.
  { apply reachable_well_shaped; [lia|]. by exists steps. }
  destruct (halo_phase_spec N size st) as (st' & E & Hwf' & Hst'); [lia|done|].
  exists st'. split; [done|].
  destruct (well_shaped_has N size st r Hwf) as [psi Hpsi]; [lia|].
  destruct (well_shaped_vget _ _ _ _ _ Hwf Hpsi) as [_ Hn].
  destruct (Hst' _ _ Hpsi) as (l & rr & psi' & Hl & Hrr & Hab & Hpsi').
  pose proof (apply_boundaries_length _ _ _ _ _ _ _ Hab) as Hlen.
  split.
  - intros Hlt. rewrite right_rank_Some in Hrr by lia.
    exists rr. split; [done|]. unfold last_of. rewrite Hpsi'. simpl.
    rewrite Hlen, Hn. apply (apply_boundaries_last _ _ _ _ _ _ _ Hab).
    rewrite right_rank_Some by lia. by eauto.
  - intros Hgt Hor. rewrite left_rank_Some in Hl by lia.
    exists l. split; [done|]. unfold first_of. rewrite Hpsi'. simpl.
    apply (apply_boundaries_first _ _ _ _ _ _ _ Hab).
    + rewrite left_rank_Some by lia. by eauto.
    + destruct Hor as [->|Hge]; [left; by apply right_rank_None|right; lia].
Qed.

(** C7.  Rank [r] gets [N/size + 1] elements when [r < N mod size] and
    [N/size] otherwise, so two lengths differ by at most one; for
    [N = 10] on 3 ranks the lengths are [4,3,3], the offsets [0,4,7],
    rank 0 has no left neighbour, rank 2 no right neighbour, rank 1
    both. *)
Theorem C7_partition_fair (N size : Z) :
  0 <= N -> 1 <= size ->
  (forall r, r < N `mod` size -> local_N N size r = N `div` size + 1) /\
  (forall r, N `mod` size <= r -> local_N N size r = N `div` size) /\
  (forall a b, a ∈ lengths N size -> b ∈ lengths N size -> a - b <= 1) /\
  lengths 10 3 = [4; 3; 3] /\
  offsets 10 3 = [0; 4; 7] /\
  left_rank 0 = None /\
  right_rank 2 3 = None /\
  left_rank 1 = Some 0 /\ right_rank 1 3 = Some 2.
Proof.
  intros HN Hs.
  split; [intros r Hr; unfold local_N;
          rewrite base_div, rem_mod, decide_True by lia; lia|].
  split; [intros r Hr; unfold local_N;
          rewrite base_div, rem_mod, decide_False by lia; lia|].
  split; [|done].
  intros a b Ha Hb. unfold lengths in *.
  apply list_elem_of_fmap in Ha as (ra & -> & _).
  apply list_elem_of_fmap in Hb as (rb & -> & _).
  destruct (local_N_cases N size ra), (local_N_cases N size rb); lia.
Qed.

(** C9.  The step loop reads [psi[0]] and [psi[local_N - 1]] without a
    guard.  With [N >= size] every rank holds an element and every
    access of every step is inside its vector; with [N < size] some
    rank has [local_N = 0], its [psi[0]] and [psi[local_N - 1]] are
    outside the (empty) vector, and the first step faults. *)
Theorem C9_indexing_precondition (N size : Z) :
  1 <= size -> 0 <= N ->
  (size <= N ->
     forall steps, exists st,
       parallel_run N size steps = Some st /\ well_shaped N size st) /\
  (N < size ->
     exists st r,
       parallel_init N size = Some st /\
       0 <= r < size /\ local_N N size r = 0 /\
       vget st r = Some [] /\
       vget (@nil cplx) 0 = None /\
       vget (@nil cplx) (local_N N size r - 1) = None /\
       capture (local_N N size r) [] = None /\
       forall steps, parallel_run N size (S steps) = None).
Proof.
  intros Hs HN. split.
  - intros Hle steps. apply parallel_run_well_shaped. lia.
  - intros Hlt.
    pose proof (parallel_init_Some N size HN ltac:(lia)) as Hinit.
    pose proof (parallel_init_well_shaped N size _ HN ltac:(lia) Hinit) as Hwf.
    eexists. exists (size - 1). split; [exact Hinit|].
    assert (local_N N size (size - 1) = 0) as Hloc.
    { unfold local_N. rewrite base_small, rem_small by lia.
      rewrite decide_False by lia. lia. }
    split; [lia|]. split; [done|].
    split.
    { destruct (well_shaped_has N size _ (size - 1) Hwf) as [psi Hpsi]; [lia|].
      destruct (well_shaped_vget _ _ _ _ _ Hwf Hpsi) as [_ Hlen].
      rewrite Hloc in Hlen. destruct psi; [done|simpl in Hlen; lia]. }
    split; [done|]. split; [by rewrite Hloc|]. split; [done|].
    intros steps. unfold parallel_run, parallel_loop. rewrite Hinit.
    cbn [mbind option_bind repeat_steps].
    rewrite parallel_step_fault; [done|lia|done].
Qed.

(** C10.  The serial program on one element never changes it: the
    pair loop is empty, and after any number of steps the state is the
    initial [1].  Every step of either program keeps the length of
    every vector, and so do the runs. *)
Theorem C10_lengths_kept (N size : Z) (steps : nat) :
  serial_run 1 steps = Some [c_one] /\
  local_update 1 [c_one] = for_each [] pair_update [c_one] /\
  (forall psi psi', serial_step N psi = Some psi' -> length psi' = length psi) /\
  (forall st st', parallel_step N size st = Some st' ->
     Forall2 (fun psi psi' => length psi' = length psi) st st') /\
  (forall st st', halo_phase N size st = Some st' ->
     Forall2 (fun psi psi' => length psi' = length psi) st st') /\
  (0 <= N ->
     exists psi, serial_run N steps = Some psi /\ Z.of_nat (length psi) = N) /\
  (1 <= size <= N ->
     exists st, parallel_run N size steps = Some st /\ well_shaped N size st).
Proof.
  split.
  { rewrite serial_run_iter by lia. f_equal.
    change (replicate (Z.to_nat 1) c_one) with [c_one].
    induction steps as [|k IH]; [done|].
    rewrite Nat.iter_succ, IH. done. }
  split; [done|].
  split; [intros psi psi'; apply local_update_length|].
  split; [intros st st'; apply parallel_step_lengths|].
  split; [intros st st'; apply halo_phase_lengths|].
  split.
  - intros HN. eexists. split; [by apply serial_run_iter|].
    rewrite length_iter_gauss_seidel, length_replicate. lia.
  - intros HN. apply parallel_run_well_shaped. lia.
Qed.

End Claims.

(** * Small runs, for every implementation of the arithmetic *)

Section SmallRuns.
Context {A : ComplexArith}.

Lemma serial_run_2_1 :
  serial_run 2 1 = Some [upd c_one c_one; upd c_one c_one].
Proof. reflexivity. Qed.

Lemma parallel_run_2_2_1 : parallel_run 2 2 1 = Some [[c_one]; [c_one]].
Proof. reflexivity. Qed.

Lemma parallel_run_3_2_1 :
  parallel_run 3 2 1 = Some [[upd c_one c_one; upd c_one c_one]; [c_one]].
Proof. reflexivity. Qed.

Lemma halo_phase_3_2 :
  halo_phase 3 2 [[upd c_one c_one; upd c_one c_one]; [c_one]]
  = Some [[upd c_one c_one; c_one]; [upd c_one c_one]].
Proof. reflexivity. Qed.

Lemma parallel_run_4_3_1 :
  parallel_run 4 3 1
  = Some [[upd c_one c_one; upd c_one c_one]; [c_one]; [c_one]].
Proof. reflexivity. Qed.

Lemma halo_phase_4_3 :
  halo_phase 4 3 [[upd c_one c_one; upd c_one c_one]; [c_one]; [c_one]]
  = Some [[upd c_one c_one; c_one]; [c_one]; [c_one]].
Proof. reflexivity. Qed.

Lemma parallel_run_4_2_1 :
  parallel_run 4 2 1
  = Some [[upd c_one c_one; upd c_one c_one];
          [upd c_one c_one; upd c_one c_one]].
Proof. reflexivity. Qed.

Lemma well_shaped_4_2 (a b c d : cplx) : well_shaped 4 2 [[a; b]; [c; d]].
Proof. unfold well_shaped. change (ranks 2) with [0; 1]. by repeat constructor. Qed.

Lemma parallel_main_2_3 (steps : nat) :
  parallel_main (Some 2) 3 (S steps) = Ran [[c_one]; [c_one]; []] None.
Proof. reflexivity. Qed.

(** Two one-element segments only swap their elements, for ever. *)
Lemma parallel_run_2_2 (steps : nat) :
  parallel_run 2 2 steps = Some [[c_one]; [c_one]].
Proof.
  change (parallel_run 2 2 steps)
    with (repeat_steps steps (parallel_step 2 2) [[c_one]; [c_one]]).
  induction steps as [|k IH]; [done|].
  change (repeat_steps (S k) (parallel_step 2 2) [[c_one]; [c_one]])
    with (repeat_steps k (parallel_step 2 2) [[c_one]; [c_one]]).
  exact IH.
Qed.

Lemma serial_run_2 (steps : nat) :
  serial_run 2 steps = Some (Nat.iter steps gauss_seidel [c_one; c_one]).
Proof. by rewrite serial_run_iter by lia. Qed.

Lemma serial_run_4_1 :
  serial_run 4 1
  = Some [upd c_one c_one;
          upd (upd c_one c_one) c_one;
          upd (upd c_one (upd c_one c_one)) c_one;
          upd c_one (upd c_one (upd c_one c_one))].
Proof. reflexivity. Qed.

End SmallRuns.

(** * The claims that need numbers *)

Section RealClaims.
Import RealModel.
Local Open Scope R_scope.

Lemma PI_gt_1 : 1 < PI.
Proof. pose proof PI2_1. lra. Qed.

Lemma sin_Jdt_lower : 1 / 200 < sin (J * dt).
Proof.
  unfold J, dt.
  destruct (sin_bound (1 * (1 / 100)) 0) as [Hlo _];
    [lra|pose proof PI_gt_1; lra|].
  eapply Rlt_le_trans; [|exact Hlo].
  unfold sin_approx, sin_term. simpl. lra.
Qed.

Lemma upd_real (x y : R * R) :
  upd x y = (cos (J * dt) * x.1 + sin (J * dt) * y.2,
             cos (J * dt) * x.2 - sin (J * dt) * y.1).
Proof. unfold upd. cbn. f_equal; ring. Qed.

Lemma upd_real_spec (x y : R * R) :
  upd x y = spec_rule (cos (1 / 100)) (sin (1 / 100)) x y.
Proof.
  rewrite upd_real. unfold spec_rule, J, dt. by rewrite Rmult_1_l.
Qed.

Lemma upd_one_one : upd c_one c_one = (cos (J * dt), - sin (J * dt)).
Proof. rewrite upd_real. cbn. f_equal; ring. Qed.

(** One update of the initial amplitude is not within [1e-12] of it. *)
Lemma upd_one_far : ~ within (1 / 10 ^ 12) c_one (upd c_one c_one).
Proof.
  rewrite upd_one_one. unfold within. cbn. intros [_ H].
  pose proof sin_Jdt_lower as Hs.
  replace (0 - - sin (J * dt)) with (sin (J * dt)) in H by ring.
  rewrite Rabs_pos_eq in H by lra. lra.
Qed.

Lemma upd_one_ne : upd c_one c_one <> c_one.
Proof.
  rewrite upd_one_one. cbn. intros [= _ H].
  pose proof sin_Jdt_lower. lra.
Qed.

(** On two elements the serial sweep turns both by the angle [J dt]
    at every step. *)
Lemma iter_gauss_seidel_2 (k : nat) :
  Nat.iter k gauss_seidel [c_one; c_one]
  = [(cos (INR k * (J * dt)), - sin (INR k * (J * dt)));
     (cos (INR k * (J * dt)), - sin (INR k * (J * dt)))].
Proof.
  induction k as [|k IH].
  - simpl. rewrite Rmult_0_l, cos_0, sin_0, Ropp_0. done.
  - rewrite Nat.iter_succ, IH, S_INR.
    replace ((INR k + 1) * (J * dt)) with (INR k * (J * dt) + J * dt) by ring.
    rewrite cos_plus, sin_plus.
    change (gauss_seidel [?a; ?b]) with [upd a b; upd b a].
    rewrite upd_real. cbn.
    apply (f_equal2 (fun x y : R * R => [x; y]));
      (apply (f_equal2 pair); ring).
Qed.

Lemma cos_10_nonpos : cos 10 <= 0.
Proof.
  replace 10 with (10 - 2 * PI + 2 * INR 1 * PI) by (simpl; ring).
  rewrite cos_period.
  pose proof PI_4. pose proof PI2_3_2. apply cos_le_0; lra.
Qed.

(** With the 1000 steps of the sources: two workers on two elements
    still hold the initial ones, the serial program holds
    [cos 10 - i sin 10] twice. *)
Lemma serial_parallel_differ_after_1000_steps :
  exists ps ss,
    parallel_run 2 2 1000 = Some ps /\
    serial_run 2 1000 = Some ss /\
    ~ Forall2 (within (1 / 10 ^ 12)) (gather ps) ss.
Proof.
  eexists. eexists. split; [apply parallel_run_2_2|].
  split; [apply serial_run_2|].
  rewrite iter_gauss_seidel_2. intros HF.
  apply Forall2_cons_1 in HF as [[Hre _] _].
  change (Rabs (1 - cos (INR 1000 * (J * dt))) <= 1 / 10 ^ 12) in Hre.
  rewrite INR_IZR_INZ in Hre. unfold J, dt in Hre.
  replace (IZR (Z.of_nat 1000) * (1 * (1 / 100))) with 10 in Hre
    by (change (Z.of_nat 1000) with 1000%Z; lra).
  pose proof cos_10_nonpos.
  rewrite Rabs_pos_eq in Hre by lra. lra.
Qed.

(** The order of the pairs matters: on three ones, the middle element
    after the sweep is not what pair (1,2) would give from the initial
    values. *)
Lemma sweep_order_matters :
  gauss_seidel [c_one; c_one; c_one]
  = [upd c_one c_one; upd (upd c_one c_one) c_one;
     upd c_one (upd c_one c_one)] /\
  upd (upd c_one c_one) c_one <> upd c_one c_one.
Proof.
  split; [done|]. rewrite upd_one_one, upd_real. cbn. intros [= _ H].
  pose proof sin_Jdt_lower as Hs.
  assert (0 < cos (J * dt)) as Hc.
  { unfold J, dt. pose proof PI_gt_1. apply cos_gt_0; lra. }
  assert (0 < cos (J * dt) * sin (J * dt)) by (apply Rmult_lt_0_compat; lra).
  lra.
Qed.

(** C1 as stated fails: 2 divides 2, yet on two workers both
    one-element segments stay at 1 (each step only swaps them), while
    the serial sweep of two elements moves both by more than [1e-12]. *)
Lemma C1_counterexample :
  ~ (forall (N size : Z) (steps : nat),
       (1 <= size)%Z -> (1 <= N)%Z -> (N `mod` size = 0)%Z ->
       exists ps ss,
         parallel_run N size steps = Some ps /\
         serial_run N steps = Some ss /\
         Forall2 (within (1 / 10 ^ 12)) (gather ps) ss).
Proof.
  intros H.
  destruct (H 2%Z 2%Z 1%nat) as (ps & ss & Hp & Hs & HF); [lia|lia|done|].
  rewrite parallel_run_2_2_1 in Hp. rewrite serial_run_2_1 in Hs.
  injection Hp as <-. injection Hs as <-.
  apply Forall2_cons_1 in HF as [HF _]. by apply upd_one_far.
Qed.

(** C2 as stated fails: with 2 elements on 3 ranks nothing is reported;
    the three segments are allocated, the third one empty, and the step
    loop is entered. *)
Lemma C2_counterexample :
  ~ (forall (N size : Z) (steps : nat),
       (N < size)%Z \/ (size <= 0)%Z ->
       forall allocated final,
         parallel_main (Some N) size steps <> Ran allocated final).
Proof.
  intros H.
  apply (H 2%Z 3%Z 1000%nat (or_introl eq_refl) _ _ (parallel_main_2_3 999)).
Qed.

(** C5 as stated fails: with 3 elements on 2 ranks the last rank holds
    the single element of global index 2; the halo phase of the second
    step overwrites it with its left neighbour's value. *)
Lemma C5_counterexample :
  ~ (forall (N size : Z) (steps : nat) st st',
       (1 <= size <= N)%Z ->
       parallel_run N size steps = Some st ->
       halo_phase N size st = Some st' ->
       first_of st' 0 = first_of st 0 /\
       last_of st' (size - 1) = last_of st (size - 1)).
Proof.
  intros H.
  destruct (H 3%Z 2%Z 1%nat _ _ ltac:(lia) parallel_run_3_2_1 halo_phase_3_2)
    as [_ Hlast].
  change (Some (upd c_one c_one) = Some c_one) in Hlast.
  apply (inj Some) in Hlast. by apply upd_one_ne.
Qed.

(** C6 as stated fails: with 4 elements on 3 ranks, rank 1 holds one
    element and has both neighbours; in the second step its element
    becomes the right neighbour's value, not the left neighbour's. *)
Lemma C6_counterexample :
  ~ (forall (N size : Z) (steps : nat) st st' (r : Z),
       (1 <= size <= N)%Z ->
       parallel_run N size steps = Some st ->
       halo_phase N size st = Some st' ->
       (0 < r < size)%Z ->
       first_of st' r = last_of st (r - 1)).
Proof.
  intros H.
  pose proof (H 4%Z 3%Z 1%nat _ _ 1%Z ltac:(lia)
                parallel_run_4_3_1 halo_phase_4_3 ltac:(lia)) as Hfirst.
  change (Some c_one = Some (upd c_one c_one)) in Hfirst.
  apply (inj Some) in Hfirst. by apply upd_one_ne.
Qed.

(** C8.  [N = 4], one step, [J dt = 0.01], one worker, all amplitudes
    1: the first pair gives [c - i s] at indices 0 and 1; the second
    pair rewrites indices 1 and 2 from the new index 1; the third pair
    rewrites indices 2 and 3; the four final values are those the
    specification constructs, here exactly and so within [1e-9]. *)
Theorem C8_four_site_scenario :
  let c := cos (1 / 100) in
  let s := sin (1 / 100) in
  let one : R * R := (1, 0) in
  let u : R * R := (c, - s) in
  pair_update [one; one; one; one] 0 = Some [u; u; one; one] /\
  pair_update [u; u; one; one] 1 = Some [u; upd u one; upd one u; one] /\
  pair_update [u; upd u one; upd one u; one] 2
  = Some [u; upd u one; upd (upd one u) one; upd one (upd one u)] /\
  serial_run 4 1
  = Some [u; upd u one; upd (upd one u) one; upd one (upd one u)] /\
  serial_run 4 1
  = Some [(c, - s);
          (c * c, - (c * s) - s);
          (c * c - c * s * s, - (c * c * s) - s);
          (c - c * s * s, s * s * s - c * s)] /\
  serial_run 4 1 = Some scenario_expected /\
  (exists psi, serial_run 4 1 = Some psi /\
               Forall2 (within (1 / 10 ^ 9)) psi scenario_expected) /\
  parallel_run 4 1 1 = Some [scenario_expected].
Proof.
  intros c s one u.
  assert (upd one one = u) as Hu.
  { rewrite upd_real_spec. unfold spec_rule, u, one, c, s. cbn. f_equal; ring. }
  assert (serial_run 4 1 = Some scenario_expected) as Hrun.
  { rewrite serial_run_4_1. unfold scenario_expected.
    by rewrite !upd_real_spec. }
  split; [rewrite <- Hu; exact (pair_update_at [] one one [one; one])|].
  split; [exact (pair_update_at [u] u one [one])|].
  split; [exact (pair_update_at [u; upd u one] (upd one u) one [])|].
  split; [rewrite serial_run_4_1; change c_one with one; by rewrite Hu|].
  split.
  { rewrite Hrun. unfold scenario_expected, spec_rule, c, s. cbn.
    do 2 f_equal; [f_equal; ring|]. f_equal; [f_equal; ring|].
    f_equal; [f_equal; ring|]. f_equal. f_equal; ring. }
  split; [done|].
  split.
  - exists scenario_expected. split; [done|].
    apply Forall_Forall2_diag, Forall_forall. intros z _. unfold within.
    rewrite !Rminus_diag, Rabs_R0. lra.
  - rewrite parallel_run_single by lia.
    rewrite serial_run_iter in Hrun by lia.
    apply (inj Some) in Hrun. by rewrite Hrun.
Qed.

(** ** The theorems at concrete inputs *)

Lemma C1_single_worker_equivalence_witness :
  (1 <= 4)%Z /\
  exists psi,
    serial_run 4 3 = Some psi /\
    parallel_run 4 1 3 = Some [psi] /\
    gather <$> parallel_run 4 1 3 = serial_run 4 3.
Proof.
  split; [lia|]. apply (C1_single_worker_equivalence 4 3). lia.
Defined.

Lemma C2_no_partition_error_witness :
  ((0 <= 2)%Z /\ (1 <= 3)%Z) /\
  exists st,
    parallel_init 2 3 = Some st /\
    well_shaped 2 3 st /\
    st = (fun n => replicate (Z.to_nat n) c_one) <$> lengths 2 3 /\
    parallel_main (Some 2%Z) 3 1 = Ran st (parallel_loop 2 3 1 st) /\
    parallel_main None 3 1 = UsageExit.
Proof.
  split; [lia|]. apply (C2_no_partition_error 2 3 1); lia.
Defined.

Lemma C3_partition_complete_witness :
  ((1 <= 10)%Z /\ (1 <= 3)%Z /\ (3 <= 10)%Z) /\
  Zsum (lengths 10 3) = 10%Z /\ offset 10 3 3 = 10%Z.
Proof.
  split; [lia|].
  destruct (C3_partition_complete 10 3) as (_ & Hsum & _ & _ & Hend & _);
    [lia|lia|lia|].
  split; [exact Hsum|exact Hend].
Defined.

Lemma C4_sweep_is_sequential_witness :
  well_shaped 4 2 [[c_one; c_one]; [c_one; c_one]] /\
  parallel_step 4 2 [[c_one; c_one]; [c_one; c_one]]
  = (st' ← halo_phase 4 2 [[c_one; c_one]; [c_one; c_one]];
     Some ((gauss_seidel <$> st') : list (list cplx))).
Proof.
  split; [apply well_shaped_4_2|].
  destruct (C4_sweep_is_sequential []) as (_ & _ & _ & _ & _ & Hpar).
  apply Hpar. apply well_shaped_4_2.
Defined.

Lemma C5_domain_edges_kept_witness :
  exists st',
    halo_phase 4 2 [[upd c_one c_one; upd c_one c_one];
                    [upd c_one c_one; upd c_one c_one]] = Some st' /\
    first_of st' 0 = Some (upd c_one c_one) /\
    last_of st' 1 = Some (upd c_one c_one).
Proof.
  destruct (C5_domain_edges_kept 4 2 1 _ ltac:(lia) parallel_run_4_2_1)
    as (st' & Hh & _ & _ & Hfirst & Hlast).
  exists st'. split; [exact Hh|]. split.
  - apply Hfirst. right. vm_compute. congruence.
  - apply Hlast. right. vm_compute. congruence.
Defined.

Lemma C6_halo_values_witness :
  exists st',
    halo_phase 4 2 [[upd c_one c_one; upd c_one c_one];
                    [upd c_one c_one; upd c_one c_one]] = Some st' /\
    first_of st' 1 = Some (upd c_one c_one).
Proof.
  destruct (C6_halo_values 4 2 1 _ 1 ltac:(lia) parallel_run_4_2_1 ltac:(lia))
    as (st' & Hh & _ & Hfirst).
  exists st'. split; [exact Hh|].
  destruct Hfirst as (x & Hx & Hst'); [lia|left; lia|].
  rewrite Hst', <- Hx. reflexivity.
Defined.

Lemma C7_partition_fair_witness :
  ((0 <= 10)%Z /\ (1 <= 3)%Z) /\
  local_N 10 3 0 = 4%Z /\ local_N 10 3 2 = 3%Z /\
  lengths 10 3 = [4; 3; 3]%Z.
Proof.
  split; [lia|].
  destruct (C7_partition_fair 10 3) as (Hlow & Hhigh & _ & Hlen & _);
    [lia|lia|].
  split; [apply Hlow; reflexivity|].
  split; [apply Hhigh; vm_compute; congruence|exact Hlen].
Defined.

Lemma C9_indexing_precondition_witness :
  (exists st, parallel_run 4 2 3 = Some st /\ well_shaped 4 2 st) /\
  parallel_run 2 3 1 = None.
Proof.
  split.
  - destruct (C9_indexing_precondition 4 2) as [Hin _]; [lia|lia|].
    apply Hin. lia.
  - destruct (C9_indexing_precondition 2 3) as [_ Hout]; [lia|lia|].
    destruct Hout as (st & r & _ & _ & _ & _ & _ & _ & _ & Hrun); [lia|].
    apply Hrun.
Defined.

Lemma C10_lengths_kept_witness :
  (exists psi, serial_run 4 3 = Some psi /\ Z.of_nat (length psi) = 4%Z) /\
  (exists st, parallel_run 4 2 3 = Some st /\ well_shaped 4 2 st).
Proof.
  destruct (C10_lengths_kept 4 2 3) as (_ & _ & _ & _ & _ & Hser & Hpar).
  split; [apply Hser; lia|apply Hpar; lia].
Defined.

End RealClaims.

(** * Further properties of the halo phase *)

Section HaloFacts.
Context {A : ComplexArith}.
Implicit Types (psi : list cplx) (st : list (list cplx)).

Lemma vget_fmap {X Y : Type} (f : X -> Y) (l : list X) i :
  vget (f <$> l) i = f <$> vget l i.
Proof. unfold vget. case_decide; [apply list_lookup_fmap|done]. Qed.

Lemma vget_lookup {X : Type} (l : list X) i x :
  vget l i = Some x <-> 0 <= i /\ l !! Z.to_nat i = Some x.
Proof.
  unfold vget. case_decide.
  - split; [by intros ?|by intros [_ ?]].
  - split; [done|]. intros [? _]. lia.
Qed.

(** Two vectors of one length that agree at every index are equal. *)
Lemma vget_ext {X : Type} (l k : list X) :
  length l = length k ->
  (forall j, 0 <= j < Z.of_nat (length l) -> vget l j = vget k j) ->
  l = k.
Proof.
  intros Hlen Hall. apply list_eq. intros i.
  destruct (decide (i < length l)%nat) as [Hi|Hi].
  - specialize (Hall (Z.of_nat i) ltac:(lia)). by rewrite !vget_nat in Hall.
  - rewrite !lookup_ge_None_2 by lia. done.
Qed.

(** Element by element, what the halo phase leaves in rank [r]: the
    last slot takes the right neighbour's first element; otherwise the
    first slot takes the left neighbour's last element; every other
    slot keeps its value. *)
Lemma halo_phase_pointwise N size st :
  0 < size <= N -> well_shaped N size st ->
  exists st',
    halo_phase N size st = Some st' /\ well_shaped N size st' /\
    forall r psi, vget st r = Some psi ->
      exists psi',
        vget st' r = Some psi' /\ length psi' = length psi /\
        forall j, 0 <= j < Z.of_nat (length psi) ->
          vget psi' j
          = if decide (j = Z.of_nat (length psi) - 1 /\ r < size - 1)
            then first_of st (r + 1)
            else if decide (j = 0 /\ 0 < r) then last_of st (r - 1)
                 else vget psi j.
Proof.
  intros HN Hwf.
  destruct (halo_phase_spec N size st HN Hwf) as (st' & E & Hwf' & Hst').
  exists st'. split; [done|]. split; [done|]. intros r psi Hpsi.
  destruct (well_shaped_vget _ _ _ _ _ Hwf Hpsi) as [Hr Hn].
  destruct (Hst' _ _ Hpsi) as (l & rr & psi' & Hl & Hrr & Hab & Hpsi').
  exists psi'. split; [done|].
  split; [by eapply apply_boundaries_length|].
  intros j Hj. rewrite Hn in *. case_decide as H1; [|case_decide as H2].
  - destruct H1 as [-> Hlt]. rewrite right_rank_Some in Hrr by lia.
    rewrite Hrr. apply (apply_boundaries_last _ _ _ _ _ _ _ Hab).
    rewrite right_rank_Some by lia. by eauto.
  - destruct H2 as [-> Hgt]. rewrite left_rank_Some in Hl by lia.
    rewrite Hl. apply (apply_boundaries_first _ _ _ _ _ _ _ Hab).
    + rewrite left_rank_Some by lia. by eauto.
    + destruct (decide (r = size - 1)) as [->|Hne];
        [left; by apply right_rank_None|right; lia].
  - destruct (decide (j = 0)) as [->|Hj0].
    + assert (r = 0) as -> by lia.
      apply (apply_boundaries_first_edge _ _ _ _ _ _ _ Hab).
      * by apply left_rank_None.
      * destruct (decide (0 = size - 1)) as [Hs|Hs];
          [left; by apply right_rank_None|right; lia].
    + destruct (decide (j = local_N N size r - 1)) as [->|HjL].
      * assert (r = size - 1) as -> by lia.
        apply (apply_boundaries_last_edge _ _ _ _ _ _ _ Hab).
        -- by apply right_rank_None.
        -- right. lia.
      * by apply (apply_boundaries_inner _ _ _ _ _ _ _ _ Hab).
Qed.

Lemma first_of_Some N size st r :
  0 < size <= N -> well_shaped N size st -> 0 <= r < size ->
  exists psi, vget st r = Some psi /\ first_of st r = vget psi 0 /\
              last_of st r = vget psi (Z.of_nat (length psi) - 1) /\
              1 <= Z.of_nat (length psi).
Proof.
  intros HN Hwf Hr. destruct (well_shaped_has N size st r Hwf Hr) as [psi Hpsi].
  exists psi. unfold first_of, last_of. rewrite Hpsi. do 3 (split; [done|]).
  destruct (well_shaped_vget _ _ _ _ _ Hwf Hpsi) as [_ ->].
  apply local_N_pos. lia.
Qed.

(** A state given rank by rank: equal lengths and equal segments. *)
Lemma segments_ext st st' :
  length st = length st' ->
  (forall r psi, vget st r = Some psi -> vget st' r = Some psi) ->
  st = st'.
Proof.
  intros Hlen Hall. apply vget_ext; [done|]. intros r Hr.
  destruct (proj2 (vget_is_Some st r)) as [psi Hpsi]; [lia|].
  rewrite Hpsi. symmetry. by apply Hall.
Qed.

Lemma well_shaped_length N size st :
  well_shaped N size st -> length st = Z.to_nat size.
Proof. by intros [? _]%well_shaped_lookup. Qed.

Lemma decide_cases (P : Prop) `{Decision P} : P \/ ~ P.
Proof. destruct (decide P); by eauto. Qed.

Lemma local_N_ge_2 N size r : 0 < size -> 2 * size <= N -> 2 <= local_N N size r.
Proof.
  intros Hs HN. assert (2 <= base N size).
  { rewrite base_div by lia. apply Z.div_le_lower_bound; lia. }
  destruct (local_N_cases N size r); lia.
Qed.

(** When every rank holds at least two elements the halo phase swaps
    the two elements next to each internal boundary, so a second halo
    phase undoes the first. *)
Lemma halo_phase_twice N size st :
  0 < size -> 2 * size <= N -> well_shaped N size st ->
  exists st', halo_phase N size st = Some st' /\
              halo_phase N size st' = Some st.
Proof.
  intros Hs HN Hwf.
  destruct (halo_phase_pointwise N size st) as (st' & E & Hwf' & H1);
    [lia|done|].
  destruct (halo_phase_pointwise N size st') as (st'' & E' & Hwf'' & H2);
    [lia|done|].
  exists st'. split; [done|]. rewrite E'. f_equal. symmetry.
  apply segments_ext.
  { rewrite (well_shaped_length N size st), (well_shaped_length N size st'');
      done. }
  intros r psi Hpsi.
  destruct (well_shaped_vget _ _ _ _ _ Hwf Hpsi) as [Hr Hn].
  pose proof (local_N_ge_2 N size r Hs HN) as Hge.
  destruct (H1 _ _ Hpsi) as (psi' & Hpsi' & Hlen' & Hj').
  destruct (H2 _ _ Hpsi') as (psi'' & Hpsi'' & Hlen'' & Hj'').
  rewrite Hpsi''. f_equal. apply vget_ext; [congruence|].
  intros j Hj. rewrite Hlen'', Hlen' in Hj. rewrite Hj'' by lia.
  rewrite Hlen'.
  destruct (decide_cases (j = Z.of_nat (length psi) - 1 /\ r < size - 1))
    as [C1|C1];
    [rewrite decide_True by done
    |rewrite decide_False by done;
     destruct (decide_cases (j = 0 /\ 0 < r)) as [C2|C2];
     [rewrite decide_True by done|rewrite decide_False by done]].
  - destruct C1 as [-> Hlt].
    destruct (well_shaped_has N size st (r + 1) Hwf) as [psiR HR]; [lia|].
    destruct (well_shaped_vget _ _ _ _ _ Hwf HR) as [_ HnR].
    pose proof (local_N_ge_2 N size (r + 1) Hs HN).
    destruct (H1 _ _ HR) as (psiR' & HR' & _ & HjR).
    unfold first_of. rewrite HR'. simpl. rewrite HjR by lia.
    rewrite decide_False by lia. rewrite decide_True by lia.
    replace (r + 1 - 1) with r by lia.
    unfold last_of. by rewrite Hpsi.
  - destruct C2 as [-> Hgt].
    destruct (well_shaped_has N size st (r - 1) Hwf) as [psiL HL]; [lia|].
    destruct (well_shaped_vget _ _ _ _ _ Hwf HL) as [_ HnL].
    pose proof (local_N_ge_2 N size (r - 1) Hs HN).
    destruct (H1 _ _ HL) as (psiL' & HL' & HlenL & HjL).
    unfold last_of. rewrite HL'. simpl. rewrite HlenL, HjL by lia.
    rewrite decide_True by lia.
    replace (r - 1 + 1) with r by lia.
    unfold first_of. by rewrite Hpsi.
  - rewrite Hj' by lia. rewrite decide_False by done.
    by rewrite decide_False by done.
Qed.

Lemma uniform_vget x st r psi j :
  Forall (Forall (eq x)) st -> vget st r = Some psi ->
  0 <= j < Z.of_nat (length psi) -> vget psi j = Some x.
Proof.
  intros Hu [_ Hpsi]%vget_lookup Hj.
  rewrite Forall_lookup in Hu. specialize (Hu _ _ Hpsi).
  destruct (proj2 (vget_is_Some psi j) Hj) as [y Hy]. rewrite Hy.
  apply vget_lookup in Hy as [_ Hy].
  rewrite Forall_lookup in Hu. by rewrite (Hu _ _ Hy).
Qed.

(** When all amplitudes of all ranks are the same value, the halo phase
    changes nothing. *)
Lemma halo_phase_uniform N size st x :
  0 < size <= N -> well_shaped N size st ->
  Forall (Forall (eq x)) st -> halo_phase N size st = Some st.
Proof.
  intros HN Hwf Hu.
  destruct (halo_phase_pointwise N size st HN Hwf) as (st' & E & Hwf' & H1).
  rewrite E. f_equal. symmetry. apply segments_ext.
  { rewrite (well_shaped_length N size st), (well_shaped_length N size st');
      done. }
  intros r psi Hpsi.
  destruct (well_shaped_vget _ _ _ _ _ Hwf Hpsi) as [Hr Hn].
  destruct (H1 _ _ Hpsi) as (psi' & Hpsi' & Hlen' & Hj').
  rewrite Hpsi'. f_equal. apply vget_ext; [done|].
  intros j Hj. rewrite Hlen' in Hj. rewrite Hj' by done.
  rewrite (uniform_vget x st r psi j) by done.
  destruct (decide_cases (j = Z.of_nat (length psi) - 1 /\ r < size - 1))
    as [C1|C1];
    [rewrite decide_True by done
    |rewrite decide_False by done;
     destruct (decide_cases (j = 0 /\ 0 < r)) as [C2|C2];
     [rewrite decide_True by done|by rewrite decide_False by done]].
  - destruct (first_of_Some N size st (r + 1) HN Hwf) as (q & Hq & -> & _ & ?);
      [lia|].
    apply (uniform_vget x st (r + 1)); (done || lia).
  - destruct (first_of_Some N size st (r - 1) HN Hwf) as (q & Hq & _ & -> & ?);
      [lia|].
    apply (uniform_vget x st (r - 1)); (done || lia).
Qed.

Lemma repeat_steps_fixed {S : Type} (step : S -> option S) (st : S) steps :
  step st = Some st -> repeat_steps steps step st = Some st.
Proof.
  intros Hfix. induction steps as [|k IH]; simpl; [done|]. by rewrite Hfix.
Qed.

Lemma parallel_step_sweeps N size st :
  well_shaped N size st ->
  parallel_step N size st
  = (st' ← halo_phase N size st;
     Some ((gauss_seidel <$> st') : list (list cplx))).
Proof.
  intros Hwf. rewrite parallel_step_split.
  destruct (halo_phase N size st) as [st1|] eqn:E; [simpl|done].
  apply on_ranks_sweep. eapply well_shaped_same_lengths; [exact Hwf|].
  by eapply halo_phase_lengths.
Qed.

End HaloFacts.

(** * The halo phase, rank after rank *)

Section HaloRecFacts.
Context {A : ComplexArith}.
Implicit Types (psi : list cplx) (st : list (list cplx)).

Lemma apply_boundaries_eq r size n l rr psi :
  1 <= n -> Z.of_nat (length psi) = n ->
  apply_boundaries r size n l rr psi
  = Some (set_last (right_rank r size ≫= fun _ => Some rr)
            (set_first (left_rank r ≫= fun _ => Some l) psi)).
Proof.
  intros Hn Hlen. unfold apply_boundaries.
  assert (Z.to_nat (n - 1) = pred (length psi)) as Hidx by lia.
  destruct (left_rank r), (right_rank r size); simpl; unfold vset.
  - rewrite decide_True by lia. simpl.
    rewrite decide_True by (rewrite length_insert; lia).
    by rewrite Hidx, length_insert.
  - by rewrite decide_True by lia.
  - rewrite decide_True by lia. by rewrite Hidx.
  - done.
Qed.

Lemma vget_last psi :
  vget psi (Z.of_nat (length psi) - 1) = last psi.
Proof.
  rewrite last_lookup. destruct psi as [|x psi]; [done|].
  unfold vget. rewrite decide_True by (simpl; lia). f_equal. simpl. lia.
Qed.

Lemma vget_head psi : vget psi 0 = head psi.
Proof. by rewrite head_lookup. Qed.

(** The ranks from [length pre] on, when the ranks below hold [pre]. *)
Lemma halo_body_rec N size st sent :
  0 < size <= N -> well_shaped N size st ->
  (forall q psi, vget st q = Some psi ->
     exists l rr, vget psi 0 = Some l /\
                  vget psi (Z.of_nat (length psi) - 1) = Some rr /\
                  vget sent q = Some (Halo l rr)) ->
  forall cur pre, st = pre ++ cur ->
    on_ranks (fun r psi =>
                '(left_recv, right_recv) ← exchange sent r size;
                apply_boundaries r size (local_N N size r)
                  left_recv right_recv psi)
             (Z.of_nat (length pre)) cur
    = Some (halo_rec (last pre ≫= last) cur).
Proof.
  intros HN Hwf Hsent cur.
  induction cur as [|psi rest IH]; intros pre Hst; [done|].
  pose proof (well_shaped_length N size st Hwf) as Hsize.
  assert (vget st (Z.of_nat (length pre)) = Some psi) as Hpsi.
  { rewrite vget_nat, Hst. by apply list_lookup_middle. }
  destruct (well_shaped_vget _ _ _ _ _ Hwf Hpsi) as [Hr Hn].
  destruct (exchange_spec N size st sent _ Hwf Hr Hsent)
    as (l & rr & He & Hl & Hrr).
  cbn [on_ranks halo_rec]. rewrite He. cbn [mbind option_bind].
  rewrite (apply_boundaries_eq _ _ _ l rr psi);
    [|apply local_N_pos; lia|done].
  cbn [mbind option_bind].
  assert (left_rank (Z.of_nat (length pre)) ≫= (fun _ => Some l)
          = last pre ≫= last) as ->.
  { destruct pre as [|q0 pre0] using rev_ind; [done|].
    rewrite length_app in *. simpl in *.
    rewrite left_rank_Some in Hl |- * by lia. simpl.
    rewrite last_snoc. simpl. rewrite <- Hl. unfold last_of.
    replace (Z.of_nat (length pre0 + 1) - 1) with (Z.of_nat (length pre0))
      by lia.
    rewrite vget_nat, Hst, <- app_assoc. simpl.
    rewrite list_lookup_middle by done. simpl. by rewrite vget_last. }
  assert (right_rank (Z.of_nat (length pre)) size ≫= (fun _ => Some rr)
          = head rest ≫= head) as ->.
  { rewrite Hst, length_app in Hsize. simpl in Hsize.
    destruct rest as [|next rest'].
    - simpl in Hsize. rewrite (proj2 (right_rank_None _ _)) by lia. done.
    - simpl in Hsize. rewrite right_rank_Some in Hrr |- * by lia. simpl.
      rewrite <- Hrr. unfold first_of.
      replace (Z.of_nat (length pre) + 1) with (Z.of_nat (length (pre ++ [psi])))
        by (rewrite length_app; simpl; lia).
      rewrite vget_nat, Hst.
      replace (pre ++ psi :: next :: rest')
        with ((pre ++ [psi]) ++ next :: rest') by (by rewrite <- app_assoc).
      rewrite list_lookup_middle by done. simpl. by rewrite vget_head. }
  specialize (IH (pre ++ [psi])). rewrite length_app, last_snoc in IH.
  simpl in IH.
  replace (Z.of_nat (length pre) + 1) with (Z.of_nat (length pre + 1)) by lia.
  rewrite IH by (by rewrite <- app_assoc). done.
Qed.

(** The halo phase is that recursion, started below rank 0. *)
Lemma halo_phase_rec N size st :
  0 < size <= N -> well_shaped N size st ->
  halo_phase N size st = Some (halo_rec None st).
Proof.
  intros HN Hwf. unfold halo_phase.
  destruct (capture_all N size st HN Hwf) as (sent & -> & _ & Hsent).
  cbn [mbind option_bind].
  apply (halo_body_rec N size st sent HN Hwf Hsent st []). done.
Qed.

(** With at least two elements in every segment the recursion only
    moves elements: the first segment's first element becomes [left]
    (when there is one), everything else is rearranged. *)
Lemma halo_rec_perm rest : forall f body left,
  body <> [] -> Forall (fun psi => (2 <= length psi)%nat) rest ->
  gather (halo_rec left ((f :: body) :: rest))
  ≡ₚ default f left :: body ++ gather rest.
Proof.
  induction rest as [|next rest' IH]; intros f body left Hbody Hall.
  - unfold gather. cbn [halo_rec head mbind option_bind set_last concat].
    rewrite !app_nil_r. by destruct left.
  - apply Forall_cons in Hall as [Hnext Hall].
    destruct next as [|f' [|b' body']]; [simpl in Hnext; lia..|].
    destruct body as [|b0 body0] using rev_ind; [done|]. clear IHbody0.
    cbn [halo_rec head mbind option_bind].
    assert (set_last (Some f') (set_first left (f :: body0 ++ [b0]))
            = default f left :: body0 ++ [f']) as ->.
    { assert (set_first left (f :: body0 ++ [b0])
              = default f left :: body0 ++ [b0]) as -> by (by destruct left).
      unfold set_last. simpl. rewrite length_app. simpl.
      replace (length body0 + 1)%nat with (S (length body0)) by lia. simpl.
      f_equal. replace (length body0) with (length body0 + 0)%nat at 1 by lia.
      by rewrite insert_app_r. }
    assert (last (f :: body0 ++ [b0]) = Some b0) as ->.
    { by rewrite app_comm_cons, last_snoc. }
    unfold gather in *. cbn [concat].
    rewrite (IH f' (b' :: body') (Some b0)) by done. simpl.
    constructor. rewrite <- !app_assoc. apply Permutation_app_head. simpl.
    apply perm_swap.
Qed.

Lemma well_shaped_ge_2 N size st :
  0 < size -> 2 * size <= N -> well_shaped N size st ->
  Forall (fun psi => (2 <= length psi)%nat) st.
Proof.
  intros Hs HN [_ Hall]%well_shaped_lookup. apply Forall_lookup.
  intros i psi Hpsi. specialize (Hall _ _ Hpsi).
  pose proof (local_N_ge_2 N size (Z.of_nat i) Hs HN). lia.
Qed.

(** So the halo phase permutes the gathered vector. *)
Lemma halo_phase_perm N size st :
  0 < size -> 2 * size <= N -> well_shaped N size st ->
  exists st', halo_phase N size st = Some st' /\ gather st' ≡ₚ gather st.
Proof.
  intros Hs HN Hwf. rewrite halo_phase_rec by (lia || done).
  eexists. split; [done|].
  pose proof (well_shaped_ge_2 N size st Hs HN Hwf) as Hall.
  pose proof (well_shaped_length N size st Hwf) as Hlen.
  destruct st as [|psi rest]; [simpl in Hlen; lia|].
  apply Forall_cons in Hall as [Hpsi Hall].
  destruct psi as [|f [|b body]]; [simpl in Hpsi; lia..|].
  by rewrite (halo_rec_perm rest f (b :: body) None).
Qed.

End HaloRecFacts.

(** * More on the partition and the neighbours *)

(** The lengths never grow with the rank. *)
Lemma local_N_antitone N size r1 r2 :
  r1 <= r2 -> local_N N size r2 <= local_N N size r1.
Proof.
  intros Hr. destruct (local_N_cases N size r1), (local_N_cases N size r2); lia.
Qed.

(** Fewer elements than ranks: the ranks below [N] hold one element,
    the others none. *)
Lemma local_N_sparse N size r :
  0 <= N < size -> 0 <= r ->
  local_N N size r = if decide (r < N) then 1 else 0.
Proof.
  intros HN Hr. unfold local_N. rewrite base_small, rem_small by done.
  case_decide; lia.
Qed.

(** As many elements as ranks: one element each. *)
Lemma local_N_square size r : 0 < size -> 0 <= r -> local_N size size r = 1.
Proof.
  intros Hs Hr. unfold local_N, base, rem.
  rewrite Z.quot_same, Z.rem_same by lia. rewrite decide_False by lia. lia.
Qed.

(** A negative [N]: no rank gets a positive length. *)
Lemma local_N_negative N size r :
  N < 0 -> 0 < size -> 0 <= r ->
  local_N N size r = base N size /\ base N size <= 0 /\
  (N <= - size -> base N size <= -1) /\
  (- size < N -> base N size = 0).
Proof.
  intros HN Hs Hr. unfold local_N, base, rem.
  replace N with (- - N) by lia.
  rewrite Z.quot_opp_l, Z.rem_opp_l by lia.
  rewrite Z.quot_div_nonneg, Z.rem_mod_nonneg by lia.
  pose proof (Z.mod_pos_bound (- N) size Hs).
  pose proof (Z.div_pos (- N) size ltac:(lia) Hs).
  rewrite decide_False by lia.
  split; [lia|]. split; [lia|]. split; intros Hcase.
  - assert (1 <= (- N) `div` size); [|lia].
    apply Z.div_le_lower_bound; lia.
  - rewrite Z.div_small by lia. lia.
Qed.

(** Every message has its receiver: [q]'s right neighbour is [r]
    exactly when [r]'s left neighbour is [q], and neighbours are ranks
    of the job. *)
Lemma neighbours_match size q r :
  0 <= q < size -> 0 <= r < size ->
  (right_rank q size = Some r <-> left_rank r = Some q).
Proof.
  intros Hq Hr. unfold right_rank, left_rank.
  repeat case_decide; split; intros [= ?]; (lia || (f_equal; lia)).
Qed.

Lemma neighbours_in_range size r p :
  0 <= r < size ->
  left_rank r = Some p \/ right_rank r size = Some p -> 0 <= p < size.
Proof.
  intros Hr. unfold right_rank, left_rank.
  repeat case_decide; intros [[= ?]|[= ?]]; lia.
Qed.

Section MoreFacts.
Context {A : ComplexArith}.
Implicit Types (psi : list cplx) (st : list (list cplx)).

Lemma gather_length_gen N size (rs : list Z) st :
  Forall2 (fun r psi => Z.of_nat (length psi) = local_N N size r) rs st ->
  Z.of_nat (length (gather st)) = Zsum (local_N N size <$> rs).
Proof.
  unfold gather. induction 1 as [|r psi rs st Hr _ IH]; [done|].
  rewrite fmap_cons.
  change (Zsum (local_N N size r :: (local_N N size <$> rs)))
    with (local_N N size r + Zsum (local_N N size <$> rs)).
  cbn [concat]. rewrite length_app. lia.
Qed.

(** The segments of a well-shaped state hold [N] elements together. *)
Lemma gather_length N size st :
  0 <= N -> 0 < size -> well_shaped N size st ->
  Z.of_nat (length (gather st)) = N.
Proof.
  intros HN Hs Hwf. rewrite (gather_length_gen N size (ranks size)) by done.
  change (Zsum (lengths N size) = N). rewrite Zsum_lengths.
  by apply offset_size.
Qed.

(** The sweep of a vector continues the sweep of its front part: the
    front part's last element is carried into the rest. *)
Lemma sweep_from_app (l1 : list cplx) : forall a,
  exists init c,
    sweep_from a l1 = init ++ [c] /\ length init = length l1 /\
    forall l2, sweep_from a (l1 ++ l2) = init ++ sweep_from c l2.
Proof.
  induction l1 as [|b l1 IH]; intros a.
  - exists [], a. done.
  - destruct (IH (upd b a)) as (init & c & E & Hlen & Happ).
    exists (upd a b :: init), c. simpl. rewrite E.
    split; [done|]. split; [by rewrite Hlen|].
    intros l2. by rewrite Happ.
Qed.

Lemma gauss_seidel_app (psi1 : list cplx) :
  psi1 <> [] ->
  exists init c,
    gauss_seidel psi1 = init ++ [c] /\ S (length init) = length psi1 /\
    forall psi2, gauss_seidel (psi1 ++ psi2) = init ++ gauss_seidel (c :: psi2).
Proof.
  intros Hne. destruct psi1 as [|a l1]; [done|].
  destruct (sweep_from_app l1 a) as (init & c & E & Hlen & Happ).
  exists init, c. simpl. split; [done|]. split; [by rewrite Hlen|].
  done.
Qed.

(** All segments made of ones: the state every job starts from. *)
Lemma parallel_init_uniform N size st :
  0 <= N -> 0 < size -> parallel_init N size = Some st ->
  Forall (Forall (eq c_one)) st.
Proof.
  intros HN Hs. rewrite parallel_init_Some by done. intros [= <-].
  apply Forall_fmap, Forall_forall. intros r _. simpl.
  apply Forall_replicate_eq.
Qed.

(** Negative [N] on the ranks: an allocation throws, or every segment
    is empty. *)
Lemma parallel_init_negative N size :
  N < 0 -> 0 < size ->
  (N <= - size -> parallel_init N size = None) /\
  (- size < N ->
     parallel_init N size = Some (replicate (Z.to_nat size) [])).
Proof.
  intros HN Hs. unfold parallel_init, ranks. split; intros Hcase.
  - apply mapM_None_2. rewrite seqZ_cons by lia. apply Exists_cons_hd.
    destruct (local_N_negative N size 0 HN Hs ltac:(lia)) as (E & _ & Hb & _).
    unfold alloc. rewrite decide_False; [done|]. rewrite E. lia.
  - apply mapM_Some_2.
    apply Forall2_replicate_r; [by rewrite length_seqZ|].
    apply Forall_seqZ. intros r Hr.
    destruct (local_N_negative N size r HN Hs ltac:(lia)) as (E & _ & _ & Hb).
    unfold flip, alloc. rewrite E, Hb by done. done.
Qed.

End MoreFacts.

(** * Further theorems, for every implementation of the arithmetic *)

Section Further.
Context {A : ComplexArith}.
Implicit Types (psi : list cplx) (st : list (list cplx)).

(** X1.  In every state the step loop reaches, the halo phase returns
    and is known element by element: in rank [r], the last slot takes
    the right neighbour's first element when there is a right
    neighbour; otherwise the first slot takes the left neighbour's last
    element when there is a left neighbour; every other slot, the
    interior included, keeps its value. *)
Theorem X1_halo_phase_element_by_element (N size : Z) (steps : nat) st :
  1 <= size <= N ->
  parallel_run N size steps = Some st ->
  exists st',
    halo_phase N size st = Some st' /\
    forall r psi, vget st r = Some psi ->
      exists psi',
        vget st' r = Some psi' /\ length psi' = length psi /\
        forall j, 0 <= j < Z.of_nat (length psi) ->
          vget psi' j
          = if decide (j = Z.of_nat (length psi) - 1 /\ r < size - 1)
            then first_of st (r + 1)
            else if decide (j = 0 /\ 0 < r) then last_of st (r - 1)
                 else vget psi j.
Proof.
  intros HN Hrun.
  assert (well_shaped N size st) as Hwf.
  { apply reachable_well_shaped; [lia|]. by exists steps. }
  destruct (halo_phase_pointwise N size st) as (st' & E & _ & H1);
    [lia|done|].
  exists st'. by split.
Qed.

(** X2.  When every rank holds at least two elements ([N >= 2 size]),
    the halo phase is its own inverse on every state the loop reaches:
    it swaps the two elements on either side of each internal
    boundary. *)
Theorem X2_halo_phase_undoes_itself (N size : Z) (steps : nat) st :
  1 <= size -> 2 * size <= N ->
  parallel_run N size steps = Some st ->
  exists st', halo_phase N size st = Some st' /\
              halo_phase N size st' = Some st.
Proof.
  intros Hs HN Hrun. apply halo_phase_twice; [lia|done|].
  apply reachable_well_shaped; [lia|]. by exists steps.
Qed.

(** X3.  When every rank holds at least two elements, the halo phase
    only rearranges the global vector: the gathered state after it is a
    permutation of the gathered state before it. *)
Theorem X3_halo_phase_permutes (N size : Z) (steps : nat) st :
  1 <= size -> 2 * size <= N ->
  parallel_run N size steps = Some st ->
  exists st', halo_phase N size st = Some st' /\ gather st' ≡ₚ gather st.
Proof.
  intros Hs HN Hrun. apply halo_phase_perm; [lia|done|].
  apply reachable_well_shaped; [lia|]. by exists steps.
Qed.

(** X4.  A step is local: the new segment of rank [r] is determined by
    its own segment, the last element of rank [r-1] and the first
    element of rank [r+1].  Two states that agree on these give rank
    [r] the same segment after one step. *)
Theorem X4_step_is_local (N size : Z) st1 st2 (r : Z) :
  1 <= size <= N ->
  well_shaped N size st1 -> well_shaped N size st2 ->
  0 <= r < size ->
  vget st1 r = vget st2 r ->
  (0 < r -> last_of st1 (r - 1) = last_of st2 (r - 1)) ->
  (r < size - 1 -> first_of st1 (r + 1) = first_of st2 (r + 1)) ->
  exists st1' st2' psi',
    parallel_step N size st1 = Some st1' /\
    parallel_step N size st2 = Some st2' /\
    vget st1' r = Some psi' /\ vget st2' r = Some psi'.
Proof.
  intros HN Hwf1 Hwf2 Hr Heq Hleft Hright.
  rewrite !parallel_step_sweeps by done.
  destruct (halo_phase_spec N size st1) as (st1' & -> & _ & H1); [lia|done|].
  destruct (halo_phase_spec N size st2) as (st2' & -> & _ & H2); [lia|done|].
  destruct (well_shaped_has N size st1 r Hwf1 Hr) as [psi Hpsi].
  destruct (H1 _ _ Hpsi) as (l1 & rr1 & psi1 & Hl1 & Hrr1 & Hab1 & Hp1).
  rewrite Heq in Hpsi.
  destruct (H2 _ _ Hpsi) as (l2 & rr2 & psi2 & Hl2 & Hrr2 & Hab2 & Hp2).
  assert (l1 = l2) as ->.
  { destruct (left_rank r) as [p|] eqn:Hp; [|congruence].
    assert (r <> 0) as Hne by (intros ->; done).
    rewrite left_rank_Some in Hp by done. injection Hp as <-.
    rewrite Hleft in Hl1 by lia. congruence. }
  assert (rr1 = rr2) as ->.
  { destruct (right_rank r size) as [p|] eqn:Hp; [|congruence].
    assert (r <> size - 1) as Hne.
    { intros ->. by rewrite (proj2 (right_rank_None _ _)) in Hp. }
    rewrite right_rank_Some in Hp by done. injection Hp as <-.
    rewrite Hright in Hrr1 by lia. congruence. }
  assert (psi1 = psi2) as -> by congruence.
  exists (gauss_seidel <$> st1'), (gauss_seidel <$> st2'), (gauss_seidel psi2).
  cbn [mbind option_bind]. rewrite !vget_fmap, Hp1, Hp2. done.
Qed.

(** X5.  The first halo exchange changes nothing, all amplitudes being
    1: after the first step every rank holds the serial sweep of as
    many ones as its length. *)
Theorem X5_first_step (N size : Z) :
  1 <= size <= N ->
  parallel_run N size 1
  = Some ((fun n => gauss_seidel (replicate (Z.to_nat n) c_one))
          <$> lengths N size).
Proof.
  intros HN. unfold parallel_run.
  pose proof (parallel_init_Some N size ltac:(lia) ltac:(lia)) as Hinit.
  rewrite Hinit. cbn [mbind option_bind parallel_loop repeat_steps].
  rewrite parallel_step_sweeps
    by (apply (parallel_init_well_shaped N size); (lia || done)).
  rewrite (halo_phase_uniform N size _ c_one).
  - cbn [mbind option_bind]. unfold lengths.
    by rewrite <- !list_fmap_compose.
  - lia.
  - apply (parallel_init_well_shaped N size); (lia || done).
  - apply (parallel_init_uniform N size); (lia || done).
Qed.

(** X6.  With as many elements as ranks, every rank holds one element,
    no pair is ever updated, and the state is all ones after any number
    of steps. *)
Theorem X6_one_element_per_rank (size : Z) (steps : nat) :
  1 <= size ->
  parallel_run size size steps = Some (replicate (Z.to_nat size) [c_one]).
Proof.
  intros Hs. unfold parallel_run.
  pose proof (parallel_init_Some size size ltac:(lia) ltac:(lia)) as Hinit.
  assert ((fun r => replicate (Z.to_nat (local_N size size r)) c_one)
            <$> ranks size = replicate (Z.to_nat size) [c_one]) as E.
  { unfold ranks. rewrite <- (length_seqZ 0 size). apply const_fmap.
    intros i r [-> _]%lookup_seqZ. by rewrite local_N_square by lia. }
  rewrite E in Hinit. rewrite Hinit. cbn [mbind option_bind].
  apply repeat_steps_fixed.
  assert (well_shaped size size (replicate (Z.to_nat size) [c_one])) as Hwf.
  { apply (parallel_init_well_shaped size size); (lia || done). }
  rewrite parallel_step_sweeps by done.
  rewrite (halo_phase_uniform size size _ c_one); [|lia|done|].
  - cbn [mbind option_bind]. by rewrite fmap_replicate.
  - apply Forall_replicate. by repeat constructor.
Qed.

End Further.

(** X7.  With fewer elements than ranks the first [N] ranks get one
    element each and all the others none. *)
Theorem X7_fewer_elements_than_ranks (N size : Z) :
  0 <= N < size ->
  lengths N size
  = replicate (Z.to_nat N) 1 ++ replicate (Z.to_nat (size - N)) 0.
Proof.
  intros HN. unfold lengths, ranks.
  replace (seqZ 0 size) with (seqZ 0 (N + (size - N))) by (f_equal; lia).
  rewrite seqZ_app, fmap_app by lia. f_equal.
  - rewrite <- (length_seqZ 0 N). apply const_fmap.
    intros i r [-> Hi]%lookup_seqZ.
    rewrite local_N_sparse by lia. by rewrite decide_True by lia.
  - rewrite <- (length_seqZ (0 + N) (size - N)). apply const_fmap.
    intros i r [-> Hi]%lookup_seqZ.
    rewrite local_N_sparse by lia. by rewrite decide_False by lia.
Qed.

(** X8.  The lengths never grow with the rank and stay between 0 and
    [N]: no rank holds more than a lower rank, and none more than
    [N]. *)
Theorem X8_lengths_ordered_and_bounded (N size r1 r2 : Z) :
  0 <= N -> 1 <= size -> 0 <= r1 <= r2 ->
  0 <= local_N N size r2 /\
  local_N N size r2 <= local_N N size r1 /\
  local_N N size r1 <= N.
Proof.
  intros HN Hs Hr.
  split; [apply local_N_nonneg; lia|].
  split; [apply local_N_antitone; lia|].
  apply local_N_le; lia.
Qed.

(** X11.  The two exchanges pair up: [q] sends right to [r] exactly
    when [r] receives from its left neighbour [q]; a rank's neighbours
    are ranks of the job; only rank 0 has no left neighbour and only
    the last rank no right neighbour. *)
Theorem X11_exchange_partners_match (size q r : Z) :
  0 <= q < size -> 0 <= r < size ->
  (right_rank q size = Some r <-> left_rank r = Some q) /\
  (forall p, left_rank r = Some p \/ right_rank r size = Some p ->
             0 <= p < size) /\
  (left_rank r = None <-> r = 0) /\
  (right_rank r size = None <-> r = size - 1).
Proof.
  intros Hq Hr.
  split; [by apply neighbours_match|].
  split; [intros p; by apply neighbours_in_range|].
  split; [apply left_rank_None|apply right_rank_None].
Qed.

Section FurtherRuns.
Context {A : ComplexArith}.
Implicit Types (psi : list cplx) (st : list (list cplx)).

(** X9.  After any number of steps the job holds one segment per rank
    and [N] elements in all. *)
Theorem X9_gathered_state_has_N_elements (N size : Z) (steps : nat) :
  1 <= size <= N ->
  exists st,
    parallel_run N size steps = Some st /\
    Z.of_nat (length st) = size /\
    Z.of_nat (length (gather st)) = N.
Proof.
  intros HN.
  destruct (parallel_run_well_shaped N size steps) as (st & E & Hwf); [lia|].
  exists st. split; [done|].
  split; [rewrite (well_shaped_length N size st Hwf); lia|].
  apply (gather_length N size); (lia || done).
Qed.

(** X10.  A negative [N] never gets through a step.  The serial
    program's vector constructor throws.  On the ranks, [N <= -size]
    makes the constructors throw; for [-size < N < 0] the truncating
    division gives every rank the length 0, every segment is empty and
    the first step reads outside it. *)
Theorem X10_negative_N (N size : Z) (steps : nat) :
  N < 0 -> 1 <= size ->
  alloc N = None /\
  serial_run N steps = None /\
  parallel_run N size (S steps) = None /\
  (N <= - size -> parallel_main (Some N) size steps = AllocThrows) /\
  (- size < N ->
     parallel_main (Some N) size (S steps)
     = Ran (replicate (Z.to_nat size) []) None).
Proof.
  intros HN Hs.
  destruct (parallel_init_negative N size HN ltac:(lia)) as [Hthrow Hempty].
  assert (parallel_step N size (replicate (Z.to_nat size) []) = None) as Hstep.
  { unfold parallel_step.
    rewrite (on_ranks_fault _ (replicate (Z.to_nat size) []) 0 O []); [done| |done].
    apply lookup_replicate_2. lia. }
  split; [unfold alloc; by rewrite decide_False by lia|].
  split; [unfold serial_run, alloc; by rewrite decide_False by lia|].
  destruct (decide (N <= - size)) as [Hle|Hgt].
  - split; [unfold parallel_run; by rewrite Hthrow|].
    split; [intros _; unfold parallel_main; by rewrite Hthrow|lia].
  - specialize (Hempty ltac:(lia)).
    split.
    { unfold parallel_run, parallel_loop. rewrite Hempty.
      cbn [mbind option_bind repeat_steps]. by rewrite Hstep. }
    split; [lia|]. intros _. unfold parallel_main, parallel_loop.
    rewrite Hempty. cbn [repeat_steps]. by rewrite Hstep.
Qed.

(** X12.  The sweep of a concatenation continues the sweep of its
    front part: the serial step on [psi1 ++ psi2] is the serial step on
    [psi1] up to its last element [c], followed by the serial step on
    [c :: psi2]. *)
Theorem X12_sweep_of_concatenation (psi1 psi2 : list cplx) :
  psi1 <> [] ->
  exists init c rest,
    serial_step (Z.of_nat (length psi1)) psi1 = Some (init ++ [c]) /\
    serial_step (Z.of_nat (length (c :: psi2))) (c :: psi2) = Some rest /\
    serial_step (Z.of_nat (length (psi1 ++ psi2))) (psi1 ++ psi2)
    = Some (init ++ rest).
Proof.
  intros Hne. unfold serial_step. rewrite !local_update_gauss_seidel.
  destruct (gauss_seidel_app psi1 Hne) as (init & c & E & _ & Happ).
  exists init, c, (gauss_seidel (c :: psi2)).
  rewrite local_update_gauss_seidel, E, Happ. done.
Qed.

(** X13.  In one sweep the influence runs to the right only: the
    elements of the result before index [length psi1 - 1] are the same
    whatever follows [psi1] in the vector. *)
Theorem X13_sweep_ignores_what_follows (psi1 psi2 psi2' : list cplx) :
  exists out out',
    serial_step (Z.of_nat (length (psi1 ++ psi2))) (psi1 ++ psi2) = Some out /\
    serial_step (Z.of_nat (length (psi1 ++ psi2'))) (psi1 ++ psi2')
    = Some out' /\
    take (length psi1 - 1) out = take (length psi1 - 1) out'.
Proof.
  unfold serial_step. rewrite !local_update_gauss_seidel.
  eexists. eexists. split; [done|]. split; [done|].
  destruct psi1 as [|a l1]; [done|].
  destruct (gauss_seidel_app (a :: l1)) as (init & c & _ & Hlen & Happ); [done|].
  rewrite !Happ. replace (length (a :: l1) - 1)%nat with (length init) by lia.
  by rewrite !take_app_length.
Qed.

End FurtherRuns.

(** * The squared norm, in exact arithmetic *)

Section RealFurther.
Import RealModel.
Local Open Scope R_scope.

(** The update of a pair is a rotation: it keeps [|a|^2 + |b|^2]. *)
Lemma norm2_upd (a b : R * R) :
  norm2 (upd a b) + norm2 (upd b a) = norm2 a + norm2 b.
Proof.
  rewrite !upd_real. unfold norm2. cbn.
  pose proof (sin2_cos2 (J * dt)) as Hcs. unfold Rsqr in Hcs.
  set (c := cos (J * dt)) in *. set (s := sin (J * dt)) in *.
  replace ((c * a.1 + s * b.2) * (c * a.1 + s * b.2) +
           (c * a.2 - s * b.1) * (c * a.2 - s * b.1) +
           ((c * b.1 + s * a.2) * (c * b.1 + s * a.2) +
            (c * b.2 - s * a.1) * (c * b.2 - s * a.1)))
    with ((s * s + c * c) * (a.1 * a.1 + a.2 * a.2 + (b.1 * b.1 + b.2 * b.2)))
    by ring.
  rewrite Hcs. ring.
Qed.

Lemma total_sweep_from (rest : list (R * R)) : forall a,
  total (sweep_from a rest) = norm2 a + total rest.
Proof.
  induction rest as [|b rest IH]; intros a; [done|].
  change (norm2 (upd a b) + total (sweep_from (upd b a) rest)
          = norm2 a + (norm2 b + total rest)).
  rewrite IH. pose proof (norm2_upd a b). lra.
Qed.

Lemma total_gauss_seidel (psi : list (R * R)) :
  total (gauss_seidel psi) = total psi.
Proof. destruct psi as [|a rest]; [done|]. apply total_sweep_from. Qed.

Lemma total_app (l k : list (R * R)) : total (l ++ k) = total l + total k.
Proof.
  induction l as [|z l IH]; simpl; [lra|].
  change (norm2 z + total (l ++ k) = norm2 z + total l + total k).
  rewrite IH. lra.
Qed.

Lemma total_perm (l k : list (R * R)) : l ≡ₚ k -> total l = total k.
Proof.
  induction 1 as [|z l k _ IH|y z l|l k m _ IH1 _ IH2]; [done| | |congruence].
  - change (norm2 z + total l = norm2 z + total k). by rewrite IH.
  - change (norm2 z + (norm2 y + total l) = norm2 y + (norm2 z + total l)).
    lra.
Qed.

Lemma total_ones (l : list (R * R)) :
  Forall (eq c_one) l -> total l = INR (length l).
Proof.
  induction 1 as [|z l <- _ IH]; [done|].
  change (norm2 c_one + total l = INR (S (length l))).
  rewrite IH, S_INR. unfold norm2. cbn. lra.
Qed.

Lemma total_gather_sweeps (st : list (list (R * R))) :
  total (gather (gauss_seidel <$> st)) = total (gather st).
Proof.
  unfold gather. induction st as [|psi st IH]; [done|].
  rewrite fmap_cons. cbn [concat].
  by rewrite !total_app, IH, total_gauss_seidel.
Qed.



End RealFurther.

Section FurtherHalo.
Context {A : ComplexArith}.
Implicit Types (psi : list cplx) (st : list (list cplx)).

Lemma elem_of_gather st r psi j y :
  vget st r = Some psi -> vget psi j = Some y -> y ∈ gather st.
Proof.
  intros [_ Hpsi]%vget_lookup [_ Hy]%vget_lookup.
  unfold gather. apply list_elem_of_In, in_concat. exists psi.
  split; apply list_elem_of_In; by eapply list_elem_of_lookup_2.
Qed.

Lemma elem_of_gather_inv st y :
  y ∈ gather st ->
  exists r psi j, vget st r = Some psi /\ vget psi j = Some y /\
                  0 <= j < Z.of_nat (length psi).
Proof.
  unfold gather. intros (psi & Hpsi & Hy)%list_elem_of_In%in_concat.
  apply list_elem_of_In, list_elem_of_lookup in Hpsi as [i Hi].
  apply list_elem_of_In, list_elem_of_lookup in Hy as [j Hj].
  exists (Z.of_nat i), psi, (Z.of_nat j). rewrite !vget_nat.
  split; [done|]. split; [done|]. apply lookup_lt_Some in Hj. lia.
Qed.

(** X16.  The halo phase invents no value: every amplitude a rank
    holds after it was held by some rank before it.  The 0 the receive
    buffers start with never enters a segment. *)
Theorem X16_halo_phase_invents_nothing (N size : Z) (steps : nat) st :
  1 <= size <= N ->
  parallel_run N size steps = Some st ->
  exists st',
    halo_phase N size st = Some st' /\
    forall y, y ∈ gather st' -> y ∈ gather st.
Proof.
  intros HN Hrun.
  assert (well_shaped N size st) as Hwf.
  { apply reachable_well_shaped; [lia|]. by exists steps. }
  destruct (halo_phase_pointwise N size st) as (st' & E & Hwf' & H1);
    [lia|done|].
  exists st'. split; [done|].
  intros y (r & psi' & j & Hpsi' & Hy & Hj)%elem_of_gather_inv.
  destruct (well_shaped_vget _ _ _ _ _ Hwf' Hpsi') as [Hr _].
  destruct (well_shaped_has N size st r Hwf Hr) as [psi Hpsi].
  destruct (H1 _ _ Hpsi) as (psi0 & Hpsi0 & Hlen & Hform).
  assert (psi0 = psi') as -> by congruence.
  rewrite Hlen in Hj. rewrite (Hform j Hj) in Hy.
  destruct (decide_cases (j = Z.of_nat (length psi) - 1 /\ r < size - 1))
    as [C1|C1];
    [rewrite decide_True in Hy by done
    |rewrite decide_False in Hy by done;
     destruct (decide_cases (j = 0 /\ 0 < r)) as [C2|C2];
     [rewrite decide_True in Hy by done|rewrite decide_False in Hy by done]].
  - destruct (first_of_Some N size st (r + 1)) as (q & Hq & Hf & _);
      [lia|done|lia|].
    rewrite Hf in Hy. by eapply elem_of_gather.
  - destruct (first_of_Some N size st (r - 1)) as (q & Hq & _ & Hl & _);
      [lia|done|lia|].
    rewrite Hl in Hy. by eapply elem_of_gather.
  - by eapply elem_of_gather.
Qed.

End FurtherHalo.

(** ** The further theorems at concrete inputs *)

Section FurtherWitnesses.
Import RealModel.

Lemma X1_halo_phase_element_by_element_witness :
  exists st',
    halo_phase 4 2 [[upd c_one c_one; upd c_one c_one];
                    [upd c_one c_one; upd c_one c_one]] = Some st' /\
    exists psi', vget st' 1 = Some psi' /\ vget psi' 0 = Some (upd c_one c_one).
Proof.
  destruct (X1_halo_phase_element_by_element 4 2 1 _ ltac:(lia)
              parallel_run_4_2_1) as (st' & Hh & Hall).
  exists st'. split; [exact Hh|].
  destruct (Hall 1 [upd c_one c_one; upd c_one c_one] eq_refl)
    as (psi' & Hpsi' & _ & Hform).
  exists psi'. split; [exact Hpsi'|].
  rewrite (Hform 0) by (simpl; lia).
  rewrite decide_False by (simpl; lia). rewrite decide_True by lia.
  reflexivity.
Defined.

Lemma X2_halo_phase_undoes_itself_witness :
  exists st',
    halo_phase 4 2 [[upd c_one c_one; upd c_one c_one];
                    [upd c_one c_one; upd c_one c_one]] = Some st' /\
    halo_phase 4 2 st' = Some [[upd c_one c_one; upd c_one c_one];
                               [upd c_one c_one; upd c_one c_one]].
Proof.
  apply (X2_halo_phase_undoes_itself 4 2 1); [lia|lia|].
  apply parallel_run_4_2_1.
Defined.

Lemma X3_halo_phase_permutes_witness :
  exists st',
    halo_phase 4 2 [[upd c_one c_one; upd c_one c_one];
                    [upd c_one c_one; upd c_one c_one]] = Some st' /\
    gather st' ≡ₚ gather [[upd c_one c_one; upd c_one c_one];
                          [upd c_one c_one; upd c_one c_one]].
Proof.
  apply (X3_halo_phase_permutes 4 2 1); [lia|lia|].
  apply parallel_run_4_2_1.
Defined.

Lemma X4_step_is_local_witness :
  exists st1' st2' psi',
    parallel_step 4 2 [[c_one; c_one]; [c_one; c_one]] = Some st1' /\
    parallel_step 4 2 [[c_zero; c_one]; [c_one; c_one]] = Some st2' /\
    vget st1' 1 = Some psi' /\ vget st2' 1 = Some psi'.
Proof.
  apply (X4_step_is_local 4 2); try apply well_shaped_4_2;
    try lia; reflexivity.
Defined.

Lemma X5_first_step_witness :
  parallel_run 10 3 1
  = Some ((fun n => gauss_seidel (replicate (Z.to_nat n) c_one))
          <$> lengths 10 3).
Proof. apply (X5_first_step 10 3). lia. Defined.

Lemma X6_one_element_per_rank_witness :
  parallel_run 3 3 1000 = Some (replicate (Z.to_nat 3) [c_one]).
Proof. apply (X6_one_element_per_rank 3 1000). lia. Defined.

Lemma X7_fewer_elements_than_ranks_witness :
  lengths 2 5 = replicate (Z.to_nat 2) 1 ++ replicate (Z.to_nat (5 - 2)) 0.
Proof. apply (X7_fewer_elements_than_ranks 2 5). lia. Defined.

Lemma X8_lengths_ordered_and_bounded_witness :
  0 <= local_N 10 3 2 /\ local_N 10 3 2 <= local_N 10 3 0 /\
  local_N 10 3 0 <= 10.
Proof. apply (X8_lengths_ordered_and_bounded 10 3 0 2); lia. Defined.

Lemma X9_gathered_state_has_N_elements_witness :
  exists st,
    parallel_run 10 3 1000 = Some st /\
    Z.of_nat (length st) = 3 /\ Z.of_nat (length (gather st)) = 10.
Proof. apply (X9_gathered_state_has_N_elements 10 3 1000). lia. Defined.

Lemma X10_negative_N_witness :
  serial_run (-1) 1000 = None /\
  parallel_run (-1) 2 1000 = None /\
  parallel_main (Some (-4)) 2 1000 = AllocThrows /\
  parallel_main (Some (-1)) 2 1000 = Ran (replicate (Z.to_nat 2) []) None.
Proof.
  destruct (X10_negative_N (-1) 2 999) as (_ & _ & Hp & _ & Hran); [lia|lia|].
  destruct (X10_negative_N (-4) 2 1000) as (_ & _ & _ & Hthrow & _);
    [lia|lia|].
  split; [|split; [exact Hp|split; [apply Hthrow; lia|apply Hran; lia]]].
  destruct (X10_negative_N (-1) 2 1000) as (_ & Hs' & _); [lia|lia|].
  exact Hs'.
Defined.

Lemma X11_exchange_partners_match_witness :
  right_rank 1 3 = Some 2 <-> left_rank 2 = Some 1.
Proof.
  destruct (X11_exchange_partners_match 3 1 2) as (Hm & _); [lia|lia|].
  exact Hm.
Defined.

Lemma X12_sweep_of_concatenation_witness :
  exists init c rest,
    serial_step 2 [c_one; c_zero] = Some (init ++ [c]) /\
    serial_step (Z.of_nat (length (c :: [c_one]))) (c :: [c_one]) = Some rest /\
    serial_step 3 [c_one; c_zero; c_one] = Some (init ++ rest).
Proof. apply (X12_sweep_of_concatenation [c_one; c_zero] [c_one]). done. Defined.



Lemma X16_halo_phase_invents_nothing_witness :
  exists st',
    halo_phase 4 3 [[upd c_one c_one; upd c_one c_one]; [c_one]; [c_one]]
    = Some st' /\
    forall y, y ∈ gather st' ->
      y ∈ gather [[upd c_one c_one; upd c_one c_one]; [c_one]; [c_one]].
Proof.
  apply (X16_halo_phase_invents_nothing 4 3 1); [lia|].
  apply parallel_run_4_3_1.
Defined.

End FurtherWitnesses.
